(** * Recursive archive extraction: a shallow embedding of [extractor.go]

    The Go package walks a byte stream recursively: it sniffs the format of
    the stream from a 512-byte peek, hands the stream to the matching decoder
    and recurses into what the decoder yields, and sends every stream it
    cannot or need not open further on an unbuffered channel, from which
    [Next] and [NextWithError] pull.

    - The decoders (compress/gzip, archive/tar, ...) and the sniffer
      (mime.Detect) are libraries outside the package; they are the fields of
      the record [Codecs], and the theorems hold for every such record.
      [Toy.codecs] is one instance, on which the walk can be run.
    - A reader is recorded by its dynamic Go type, which the type assertions
      of [extract] and [Next] look at, and by the bytes it yields from its
      current position.  A decoder constructor that fails has read some bytes
      of the reader it was given; that reader is then further on.
    - [extract] is recursive in what the decoders yield, which need not be
      smaller than what they were given, so it takes fuel.  A run ends with a
      status: it returned, it panicked, or the fuel did not suffice.
    - The tar and rar branches build one archive reader and pass that same
      reader to the recursive call for every entry, calling Next on it in
      between.  [archive_Reader] is that reader as it stands at an entry,
      with the payloads of the entries it moves on to; a log records a reader
      as it stood when it was passed on or sent.
    - The producer goroutine and the channel are recorded as the sequence of
      filestreams sent, in order, followed by the close of the channel, a
      panic, or nothing.  Every [&filestream{...}] gets a number, and the log
      of a run keeps the constructions, the calls of [extract] and the sends. *)

From Stdlib Require Import List String Ascii Strings.Byte Bool Arith Lia.
Import ListNotations.

Set Implicit Arguments.

Definition bytes := list byte.

(** ** Strings: the library functions [extract] calls *)

Module strings.

(** [prefix sep s]: [s] starts with [sep]. *)
Fixpoint HasPrefix (s sep : string) : bool :=
  match sep, s with
  | EmptyString, _ => true
  | String a sep', String b s' => Ascii.eqb a b && HasPrefix s' sep'
  | String _ _, EmptyString => false
  end.

(** The loop of strings.genSplit for a non-empty separator: cut at the
    leftmost occurrence of [sep], continue after it.  [skip] counts the
    bytes of a matched separator still to be dropped, [cur] is the segment
    being read. *)
Fixpoint genSplit (sep s : string) (skip : nat) (cur : string) : list string :=
  match s with
  | EmptyString => [cur]
  | String c s' =>
      match skip with
      | S k => genSplit sep s' k cur
      | O =>
          if HasPrefix s sep
          then cur :: genSplit sep s' (String.length sep - 1) EmptyString
          else genSplit sep s' 0 (cur ++ String c EmptyString)%string
      end
  end.

(** strings.explode on a string of single-byte characters. *)
Fixpoint explode (s : string) : list string :=
  match s with
  | EmptyString => []
  | String c s' => String c EmptyString :: explode s'
  end.

(** strings.Split(s, sep). *)
Definition Split (s sep : string) : list string :=
  match sep with
  | EmptyString => explode s
  | _ => genSplit sep s 0 EmptyString
  end.

End strings.

Module filepath.

Definition IsPathSeparator (c : ascii) : bool := Ascii.eqb c "/"%char.

(** The loop of filepath.Ext, which runs from the last byte of the path to
    the first: [r] is what is left of the path, reversed, and [acc] the
    bytes already passed. *)
Fixpoint ext_scan (r acc : list ascii) : list ascii :=
  match r with
  | [] => []
  | c :: r' =>
      if IsPathSeparator c then []
      else if Ascii.eqb c "."%char then c :: acc
      else ext_scan r' (c :: acc)
  end.

Definition Ext (path : string) : string :=
  string_of_list_ascii (ext_scan (rev (list_ascii_of_string path)) []).

End filepath.

(** [base[:len(base)-len(ext)]] *)
Definition slice_to (s : string) (n : nat) : string := String.substring 0 n s.

(** ** Errors, readers, filestreams *)

Inductive error : Type :=
| io_EOF
| NestError                      (* "reader is nested archive that cannot be extracted." *)
| other_error (msg : string).    (* an error value of a decoder library *)

Definition is_EOF (e : error) : bool :=
  match e with io_EOF => true | _ => false end.

(** Dynamic types of the readers that own what they read: decoders, the
    reader of one zip entry, readers of other types. *)
Inductive stream_type : Type :=
| gzip_Reader | bzip2_reader | zip_entry | xz_Reader | lz4_Reader
| foreign_reader.                (* any other io.Reader a caller passes to New *)

(** The readers that iterate over an archive with Next. *)
Inductive archive_type : Type :=
| tar_Reader | rardecode_Reader.

(** [os_File] is an *os.File on a regular file: [whole] is what ReadAt and
    Stat see, [off] the offset from which Read continues.  [os_Pipe] is an
    *os.File that cannot seek (a pipe, a terminal): Read yields [data], Stat
    reports the size 0 and nothing can be read by offset.

    [archive_Reader t entries] is the one *tar.Reader or *rardecode.Reader of
    a frame as it stands: [entries] are the payloads of the entry it is at
    and of the entries after it, [[]] once the iteration has ended.  The loop
    of the frame passes this one reader to every recursive call and advances
    it with Next between the calls. *)
Inductive Reader : Type :=
| nil_reader
| os_File (whole : bytes) (off : nat) (stat_err : option error)
| stream (t : stream_type) (data : bytes)
| bufio_Reader (size : nat) (src : Reader) (rd : nat)
| os_Pipe (data : bytes)
| archive_Reader (t : archive_type) (entries : list bytes).

(** The bytes a reader yields from its current position, as it stands.  An
    archive reader yields the rest of the entry it is at; once its owner has
    called Next again it yields the following entry instead, also to a
    filestream that was sent with it: a log records every reader as it stood
    at the send. *)
Fixpoint content (r : Reader) : bytes :=
  match r with
  | nil_reader => []
  | os_File whole off _ => skipn off whole
  | stream _ data => data
  | bufio_Reader _ src rd => skipn rd (content src)
  | os_Pipe data => data
  | archive_Reader _ entries => hd [] entries
  end.

(** Reading through a nil reader is a nil dereference. *)
Fixpoint readable (r : Reader) : bool :=
  match r with
  | nil_reader => false
  | bufio_Reader _ src _ => readable src
  | _ => true
  end.

(** A reader just made by tar.NewReader or rardecode.NewReader over an
    archive with the payloads [payloads]: it stands before the first entry
    and yields nothing until Next is called. *)
Definition archive_NewReader (t : archive_type) (payloads : list bytes) : Reader :=
  archive_Reader t ([] :: payloads).

(** The reader after [r.Next()]: it has left the entry it was at. *)
Definition archive_Next (rd : Reader) : Reader :=
  match rd with
  | archive_Reader t (_ :: later) => archive_Reader t later
  | _ => rd
  end.

Definition defaultBufSize : nat := 4096.

(** bufio.NewReader on a reader that is not a bufio.Reader. *)
Definition bufio_NewReader (r : Reader) : Reader := bufio_Reader defaultBufSize r 0.

(** br.Peek(n) with its error dropped: the next [n] bytes, or as many as the
    buffer holds or the source still has; nothing is consumed.  [None] is the
    nil dereference of a reader over nil. *)
Definition Peek (n : nat) (br : Reader) : option bytes :=
  match br with
  | bufio_Reader size src _ =>
      if readable src then Some (firstn (Nat.min n size) (content br)) else None
  | _ => None
  end.

(** [br, ok := f.r.( *bufio.Reader); if !ok { br = bufio.NewReader(f.r) }] *)
Definition buffered (rd : Reader) : Reader :=
  match rd with
  | bufio_Reader _ _ _ => rd
  | _ => bufio_NewReader rd
  end.

(** The reader after a decoder constructor has read [n] bytes from it. *)
Definition advance (n : nat) (br : Reader) : Reader :=
  match br with
  | bufio_Reader size src rd => bufio_Reader size src (rd + n)
  | _ => br
  end.

Record filestream : Type := mkfs {
  r : Reader;
  filename : string;
  err : option error
}.

(** ** The collaborators *)

Inductive mime_type : Type :=
| Gzip | Bzip2 | Zip | Tar | Rar | Xz | Lz4
| other_type.                    (* every other result of mime.Detect *)

Record tar_Header : Type := { Typeflag : byte; tar_Name : string }.
Record rar_FileHeader : Type := { IsDir : bool; rar_Name : string }.
Record zip_File : Type := { zip_Name : string; zip_Open : error + bytes }.

Definition tar_TypeReg : byte := x30.   (* '0' *)

(** A constructor that fails returns its error and has read some bytes of the
    reader it was given; one that succeeds gives the decoder.  Iterating a tar
    or rar reader with Next gives the entries (header and payload) in the
    order of the archive and then an error, io.EOF at a regular end, with a
    nil header. *)
Record Codecs : Type := {
  mime_Detect : bytes -> mime_type;
  gzip_NewReader : bytes -> (error * nat) + (string * bytes);
  bzip2_NewReader : bytes -> bytes;
  zip_NewReader : bytes -> error + list zip_File;
  tar_NewReader : bytes -> list (tar_Header * bytes) * error;
  rardecode_NewReader :
    bytes -> (error * nat) + (list (rar_FileHeader * bytes) * error);
  xz_NewReader : bytes -> (error * nat) + bytes;
  lz4_NewReader : bytes -> bytes
}.

(** ** The producer: events, outcomes, sequencing *)

(** Every [&filestream{...}] gets the next free number; the log records the
    construction, every call [e.extract(f)] and every send [e.c <- f] with the
    value of [*f] at that moment. *)
Inductive event : Type :=
| Alloc (id : nat)
| Call (id : nat) (f : filestream)
| Send (id : nat) (f : filestream).

Inductive status : Type :=
| Done                           (* returned *)
| Panic                          (* run-time panic of the producer *)
| OutOfFuel.                     (* recursion deeper than the fuel given *)

(** A command maps the next free number to a status, the next free number
    afterwards, and the events in order. *)
Definition cmd : Type := nat -> status * nat * list event.

Definition skip : cmd := fun n => (Done, n, []).
Definition panic : cmd := fun n => (Panic, n, []).
Definition out_of_fuel : cmd := fun n => (OutOfFuel, n, []).

Definition andThen (a b : cmd) : cmd :=
  fun n =>
    match a n with
    | (Done, n1, ev1) => let '(s, n2, ev2) := b n1 in (s, n2, ev1 ++ ev2)
    | res => res
    end.

Notation "a ;; b" := (andThen a b) (at level 61, right associativity).

(** [e.c <- f] *)
Definition send (id : nat) (f : filestream) : cmd := fun n => (Done, n, [Send id f]).

(** [e.c <- &filestream{...}] *)
Definition send_new (f : filestream) : cmd := fun n => (Done, S n, [Alloc n; Send n f]).

(** [e.extract(&filestream{...})] *)
Definition extract_new (rec : nat -> filestream -> cmd) (f : filestream) : cmd :=
  fun n => let '(s, m, ev) := rec n f (S n) in (s, m, Alloc n :: Call n f :: ev).

(** The filestreams sent, in order. *)
Fixpoint sent (ev : list event) : list filestream :=
  match ev with
  | [] => []
  | Send _ f :: ev' => f :: sent ev'
  | _ :: ev' => sent ev'
  end.

(** ** extract *)

(** The name of the stream inside a compression-only container: the lines

      fname := f.filename
      split := strings.Split(f.filename, e.sep)
      base := split[len(split)-1]
      ext := filepath.Ext(base)
      if ext == canon { fname = f.filename + e.sep + base[:len(base)-len(ext)] }

    which the bzip2, xz and lz4 branches each carry with their own [canon].
    [None] is the index panic on an empty [split]. *)
Definition stripped_name (sep fname canon : string) : option string :=
  let split := strings.Split fname sep in
  match split with
  | [] => None
  | _ =>
      let base := last split EmptyString in
      let ext := filepath.Ext base in
      if String.eqb ext canon
      then Some (fname ++ sep ++ slice_to base (String.length base - String.length ext))%string
      else Some fname
  end.

Section Extract.

Variable K : Codecs.
Variable sep : string.                       (* e.sep *)

(** [f.err = err; f.r = br; e.c <- f; return] *)
Definition fail (id : nat) (f : filestream) (br : Reader) (e : error) : cmd :=
  send id {| r := br; filename := f.(filename); err := Some e |}.

(** The loop over [r.File] of the zip branch. *)
Fixpoint zip_loop (rec : nat -> filestream -> cmd) (fname : string)
         (files : list zip_File) : cmd :=
  match files with
  | [] => skip
  | file :: rest =>
      match file.(zip_Open) with
      | inl e =>
          send_new {| r := bufio_NewReader nil_reader; filename := EmptyString; err := Some e |} ;;
          zip_loop rec fname rest
      | inr data =>
          extract_new rec {| r := stream zip_entry data;
                             filename := (fname ++ sep ++ file.(zip_Name))%string;
                             err := None |} ;;
          zip_loop rec fname rest
      end
  end.

(** The loop of the tar branch over its reader [rd], the [r] of the source;
    [entries] is what [r.Next()] has yet to give and [term] the error that
    ends the iteration.  Every turn calls [r.Next()] and passes [r] itself on:
    the filestream of an entry holds the frame's one tar reader, which stands
    at that entry until the next turn moves it.  Only io.EOF is tested for:
    after any other error the header is nil and [hdr.Typeflag] dereferences
    it. *)
Fixpoint tar_loop (rec : nat -> filestream -> cmd) (fname : string) (rd : Reader)
         (entries : list (tar_Header * bytes)) (term : error) : cmd :=
  let rd' := archive_Next rd in                  (* hdr, err := r.Next() *)
  match entries with
  | [] =>
      if is_EOF term
      then send_new {| r := bufio_NewReader rd'; filename := EmptyString;
                       err := Some term |}
      else panic
  | (hdr, data) :: rest =>
      if Byte.eqb hdr.(Typeflag) tar_TypeReg
      then
        extract_new rec {| r := rd';
                           filename := (fname ++ sep ++ hdr.(tar_Name))%string;
                           err := None |} ;;
        tar_loop rec fname rd' rest term
      else tar_loop rec fname rd' rest term
  end.

(** The loop of the rar branch, over the frame's one rar reader. *)
Fixpoint rar_loop (rec : nat -> filestream -> cmd) (fname : string) (rd : Reader)
         (entries : list (rar_FileHeader * bytes)) (term : error) : cmd :=
  let rd' := archive_Next rd in                  (* hdr, err := r.Next() *)
  match entries with
  | [] =>
      send_new {| r := bufio_NewReader rd'; filename := EmptyString;
                  err := Some term |}
  | (hdr, data) :: rest =>
      if hdr.(IsDir)
      then rar_loop rec fname rd' rest term
      else
        extract_new rec {| r := rd';
                           filename := (fname ++ sep ++ hdr.(rar_Name))%string;
                           err := None |} ;;
        rar_loop rec fname rd' rest term
  end.

(** A compression-only branch once its decoder [t] yields [data]. *)
Definition strip_and_extract (rec : nat -> filestream -> cmd) (f : filestream)
           (t : stream_type) (data : bytes) (canon : string) : cmd :=
  match stripped_name sep f.(filename) canon with
  | None => panic
  | Some fname => extract_new rec {| r := stream t data; filename := fname; err := None |}
  end.

(** [func (e *extractor) extract(f *filestream)]; [id] is the number of [f]. *)
Fixpoint extract (fuel : nat) (id : nat) (f : filestream) {struct fuel} : cmd :=
  match fuel with
  | O => out_of_fuel
  | S fuel' =>
      let rec := extract fuel' in
      let br := buffered f.(r) in
      match Peek 512 br with
      | None => panic
      | Some buf =>
          match K.(mime_Detect) buf with
          | Gzip =>
              match K.(gzip_NewReader) (content br) with
              | inl (e, n) => fail id f (advance n br) e
              | inr (name, data) =>
                  extract_new rec {| r := stream gzip_Reader data;
                                     filename := (f.(filename) ++ sep ++ name)%string;
                                     err := None |}
              end
          | Bzip2 =>
              strip_and_extract rec f bzip2_reader (K.(bzip2_NewReader) (content br)) ".bz2"
          | Zip =>
              match f.(r) with
              | os_File whole _ stat_err =>
                  match stat_err with
                  | Some e => fail id f br e
                  | None =>
                      match K.(zip_NewReader) whole with
                      | inl e => fail id f br e
                      | inr files => zip_loop rec f.(filename) files
                      end
                  end
              | os_Pipe _ =>
                  (* the type assertion holds; zip.NewReader(of, 0) *)
                  match K.(zip_NewReader) [] with
                  | inl e => fail id f br e
                  | inr files => zip_loop rec f.(filename) files
                  end
              | _ => fail id f br NestError
              end
          | Tar =>
              let '(entries, term) := K.(tar_NewReader) (content br) in
              tar_loop rec f.(filename)
                       (archive_NewReader tar_Reader (map snd entries)) entries term
          | Rar =>
              match K.(rardecode_NewReader) (content br) with
              | inl (e, n) => fail id f (advance n br) e
              | inr (entries, term) =>
                  rar_loop rec f.(filename)
                           (archive_NewReader rardecode_Reader (map snd entries))
                           entries term
              end
          | Xz =>
              match K.(xz_NewReader) (content br) with
              | inl (e, n) => fail id f (advance n br) e
              | inr data => strip_and_extract rec f xz_Reader data ".xz"
              end
          | Lz4 =>
              strip_and_extract rec f lz4_Reader (K.(lz4_NewReader) (content br)) ".lz4"
          | other_type =>
              send id {| r := br; filename := f.(filename); err := f.(err) |}
          end
      end
  end.

End Extract.

(** ** The session: New, Next, NextWithError *)

(** What becomes of the producer goroutine. *)
Inductive producer : Type :=
| closes                         (* extract returns and close(e.c) runs *)
| panics                         (* the goroutine panics *)
| hangs.                         (* the walk does not return *)

(** The unbuffered channel, seen from the consumer: the filestreams the
    producer sends, in order, one per receive, and what follows the last. *)
Record chan : Type := { queue : list filestream; after : producer }.

Record extractor : Type := {
  e_r : Reader;
  e_c : chan;
  e_filename : string;
  e_once : bool;                 (* once.Do has run *)
  e_sep : string
}.

(** [make(chan *filestream)] has no sender until once.Do has run. *)
Definition New (rd : Reader) (fname : string) : extractor :=
  {| e_r := rd; e_c := {| queue := []; after := hangs |};
     e_filename := fname; e_once := false; e_sep := ":" |}.

(** What a pull gives: the values returned and the session afterwards, or no
    return at all (the receive blocks for ever, or the program panics). *)
Inductive pulled (A : Type) : Type :=
| Returns (a : A) (e : extractor)
| NoReturn.
Arguments NoReturn {A}.

Section Session.

Variable K : Codecs.

(** [e.extract(&filestream{r: e.r, filename: e.filename}); close(e.c)] *)
Definition walk (fuel : nat) (e : extractor) : status * nat * list event :=
  extract_new (extract K e.(e_sep) fuel)
              {| r := e.(e_r); filename := e.(e_filename); err := None |} 0.

Definition producer_of (s : status) : producer :=
  match s with Done => closes | Panic => panics | OutOfFuel => hangs end.

(** [e.once.Do(func() { go func() { ... }() })] *)
Definition once_Do (fuel : nat) (e : extractor) : extractor :=
  if e.(e_once) then e
  else
    let '(s, _, ev) := walk fuel e in
    {| e_r := e.(e_r); e_c := {| queue := sent ev; after := producer_of s |};
       e_filename := e.(e_filename); e_once := true; e_sep := e.(e_sep) |}.

Definition with_queue (e : extractor) (q : list filestream) : extractor :=
  {| e_r := e.(e_r); e_c := {| queue := q; after := e.(e_c).(after) |};
     e_filename := e.(e_filename); e_once := e.(e_once); e_sep := e.(e_sep) |}.

(** The [for] loop of Next over the receives [fs, more := <-e.c]. *)
Fixpoint Next_loop (e : extractor) (q : list filestream)
  : pulled (Reader * string * bool) :=
  match q with
  | [] =>
      match e.(e_c).(after) with
      | closes => Returns (nil_reader, EmptyString, false) (with_queue e [])
      | _ => NoReturn
      end
  | fs :: q' =>
      match fs.(err) with
      | Some _ => Next_loop e q'
      | None =>
          match fs.(r) with
          | bufio_Reader _ _ _ => Returns (fs.(r), fs.(filename), true) (with_queue e q')
          | _ => NoReturn              (* fs.r.( *bufio.Reader) panics *)
          end
      end
  end.

Definition Next (fuel : nat) (e : extractor) : pulled (Reader * string * bool) :=
  let e' := once_Do fuel e in
  Next_loop e' e'.(e_c).(queue).

Definition NextWithError (fuel : nat) (e : extractor)
  : pulled (Reader * string * option error * bool) :=
  let e' := once_Do fuel e in
  match e'.(e_c).(queue) with
  | [] =>
      match e'.(e_c).(after) with
      | closes => Returns (nil_reader, EmptyString, None, false) (with_queue e' [])
      | _ => NoReturn
      end
  | fs :: q' =>
      match fs.(r) with
      | bufio_Reader _ _ _ =>
          Returns (fs.(r), fs.(filename), fs.(err), true) (with_queue e' q')
      | _ => NoReturn
      end
  end.

(** [k] successive calls of Next: what each returned, as long as they return. *)
Fixpoint pulls (k : nat) (fuel : nat) (e : extractor) : list (Reader * string * bool) :=
  match k with
  | O => []
  | S k' =>
      match Next fuel e with
      | Returns res e' => res :: pulls k' fuel e'
      | NoReturn => []
      end
  end.

Fixpoint pulls_with_error (k : nat) (fuel : nat) (e : extractor)
  : list (Reader * string * option error * bool) :=
  match k with
  | O => []
  | S k' =>
      match NextWithError fuel e with
      | Returns res e' => res :: pulls_with_error k' fuel e'
      | NoReturn => []
      end
  end.

End Session.

(** ** A small family of codecs, to run the walk on concrete bytes

    The first byte of a stream is its signature.  A gzip stream is
    [G d name ; payload]; a bzip2 or lz4 stream is the signature and the
    payload; an xz stream is [X k payload]; a tar stream is [T] and its
    entries, a rar stream [R k] and its entries, a zip file [Z k] and its
    entries.  An entry is a kind ([f] file, [d] directory, [x] a zip file
    that cannot be opened), a name closed by [;], one byte of length and that
    many bytes of payload.  As compress/gzip and ulikunitz/xz do, the gzip
    and xz constructors read the fixed-size header (10 and 12 bytes) from the
    reader they are given before they check it. *)
Module Toy.

Definition B (s : string) : bytes := list_byte_of_string s.

Definition len_byte (n : nat) : byte :=
  match Byte.of_nat n with Some b => b | None => x00 end.

Definition Detect (buf : bytes) : mime_type :=
  match buf with
  | "G"%byte :: _ => Gzip
  | "B"%byte :: _ => Bzip2
  | "Z"%byte :: _ => Zip
  | "T"%byte :: _ => Tar
  | "R"%byte :: _ => Rar
  | "X"%byte :: _ => Xz
  | "L"%byte :: _ => Lz4
  | _ => other_type
  end.

(** The bytes before the first [;] and the bytes after it. *)
Fixpoint take_name (b : bytes) : option (bytes * bytes) :=
  match b with
  | [] => None
  | c :: b' =>
      if Byte.eqb c ";"%byte then Some ([], b')
      else match take_name b' with
           | Some (name, rest) => Some (c :: name, rest)
           | None => None
           end
  end.

Definition ErrHeader : error := other_error "invalid header".
Definition ErrUnexpectedEOF : error := other_error "unexpected EOF".

Fixpoint entries (fuel : nat) (b : bytes) : list (byte * string * bytes) * error :=
  match fuel with
  | O => ([], ErrUnexpectedEOF)
  | S fuel' =>
      match b with
      | [] => ([], io_EOF)
      | kind :: b1 =>
          if Byte.eqb kind "f"%byte || Byte.eqb kind "d"%byte || Byte.eqb kind "x"%byte
          then
            match take_name b1 with
            | Some (name, len :: b2) =>
                let n := Byte.to_nat len in
                let '(es, term) := entries fuel' (skipn n b2) in
                ((kind, string_of_list_byte name, firstn n b2) :: es, term)
            | _ => ([], ErrUnexpectedEOF)
            end
          else ([], ErrHeader)
      end
  end.

Definition gzip (b : bytes) : (error * nat) + (string * bytes) :=
  match b with
  | _ :: "d"%byte :: b' =>
      match take_name b' with
      | Some (name, payload) => inr (string_of_list_byte name, payload)
      | None => inl (ErrUnexpectedEOF, List.length b)
      end
  | _ => inl (ErrHeader, 10)
  end.

Definition xz (b : bytes) : (error * nat) + bytes :=
  match b with
  | _ :: "k"%byte :: payload => inr payload
  | _ => inl (ErrHeader, 12)
  end.

Definition tar (b : bytes) : list (tar_Header * bytes) * error :=
  let '(es, term) := entries (List.length b) (tl b) in
  (map (fun '(kind, name, data) =>
          ({| Typeflag := if Byte.eqb kind "f"%byte then "0"%byte else "5"%byte;
              tar_Name := name |}, data)) es,
   term).

Definition rar (b : bytes)
  : (error * nat) + (list (rar_FileHeader * bytes) * error) :=
  match b with
  | _ :: "k"%byte :: b' =>
      let '(es, term) := entries (List.length b) b' in
      inr (map (fun '(kind, name, data) =>
                  ({| IsDir := Byte.eqb kind "d"%byte; rar_Name := name |}, data)) es,
           term)
  | _ => inl (ErrHeader, 7)
  end.

Definition zip (whole : bytes) : error + list zip_File :=
  match whole with
  | _ :: "k"%byte :: b' =>
      match entries (List.length whole) b' with
      | (es, io_EOF) =>
          inr (map (fun '(kind, name, data) =>
                      {| zip_Name := name;
                         zip_Open := if Byte.eqb kind "x"%byte
                                     then inl ErrHeader else inr data |}) es)
      | (_, e) => inl e
      end
  | _ => inl ErrHeader
  end.

Definition codecs : Codecs :=
  {| mime_Detect := Detect;
     gzip_NewReader := gzip;
     bzip2_NewReader := @tl byte;
     zip_NewReader := zip;
     tar_NewReader := tar;
     rardecode_NewReader := rar;
     xz_NewReader := xz;
     lz4_NewReader := @tl byte |}.

(** Writers of the same formats. *)
Definition entry (kind : string) (name : string) (data : bytes) : bytes :=
  B kind ++ B name ++ B ";" ++ len_byte (List.length data) :: data.
Definition mk_gzip (name : string) (payload : bytes) : bytes :=
  B "Gd" ++ B name ++ B ";" ++ payload.
Definition mk_tar (es : list bytes) : bytes := B "T" ++ List.concat es.
Definition mk_rar (es : list bytes) : bytes := B "Rk" ++ List.concat es.
Definition mk_zip (es : list bytes) : bytes := B "Zk" ++ List.concat es.

(** "x.tar.gz": a gzip stream with no name in its header, over a tar
    archive of a.txt, b/ and c.bin. *)
Definition x_tar : bytes :=
  mk_tar [entry "f" "a.txt" (B "hello"); entry "d" "b/" []; entry "f" "c.bin" (B "0101")].
Definition x_tar_gz : bytes := mk_gzip "" x_tar.

End Toy.

(** ** The nesting structure of an input

    What the walk is specified to deliver, written without the channel: a
    stream is a leaf, or a container with the structures of what it holds, in
    the container's own order.  A compression-only container holds one
    stream; a tar or rar archive holds its regular entries and, last, the
    marker of its end; a zip file holds its entries, one that cannot be opened
    being a leaf.  [Cut] stands where the walk of the input stops for good: a
    panic of the producer, or nesting deeper than the fuel. *)
#[local] Set Warnings "-register-all".

Inductive tree : Type :=
| Leaf (f : filestream)
| Node (children : list tree)
| Cut.

(** No cut anywhere. *)
Fixpoint complete (t : tree) : bool :=
  match t with
  | Leaf _ => true
  | Node children => forallb complete children
  | Cut => false
  end.

(** The leaves from left to right, every container before what follows it,
    as far as the first cut. *)
Fixpoint leaves (t : tree) : list filestream :=
  match t with
  | Leaf f => [f]
  | Node children =>
      (fix go (ts : list tree) : list filestream :=
         match ts with
         | [] => []
         | c :: ts' => leaves c ++ (if complete c then go ts' else [])
         end) children
  | Cut => []
  end.

(** The same for a list of structures side by side. *)
Fixpoint leaves_of (ts : list tree) : list filestream :=
  match ts with
  | [] => []
  | c :: ts' => leaves c ++ (if complete c then leaves_of ts' else [])
  end.

Section Nesting.

Variable K : Codecs.
Variable sep : string.

(** The filestreams of the regular entries of a tar archive, in the order of
    the archive; each holds the archive's reader as it stands at that entry. *)
Fixpoint tar_streams (fname : string) (entries : list (tar_Header * bytes))
  : list filestream :=
  match entries with
  | [] => []
  | (hdr, data) :: rest =>
      if Byte.eqb hdr.(Typeflag) tar_TypeReg
      then {| r := archive_Reader tar_Reader (data :: map snd rest);
              filename := (fname ++ sep ++ hdr.(tar_Name))%string; err := None |}
             :: tar_streams fname rest
      else tar_streams fname rest
  end.

(** The filestreams of the entries of a rar archive that are no directories. *)
Fixpoint rar_streams (fname : string) (entries : list (rar_FileHeader * bytes))
  : list filestream :=
  match entries with
  | [] => []
  | (hdr, data) :: rest =>
      if hdr.(IsDir)
      then rar_streams fname rest
      else {| r := archive_Reader rardecode_Reader (data :: map snd rest);
              filename := (fname ++ sep ++ hdr.(rar_Name))%string; err := None |}
             :: rar_streams fname rest
  end.

(** The filestream sent when the iteration of an archive has ended with the
    error [e]: the archive's reader, at its end. *)
Definition end_marker (t : archive_type) (e : error) : filestream :=
  {| r := bufio_NewReader (archive_Reader t []); filename := EmptyString; err := Some e |}.

Fixpoint nest (fuel : nat) (f : filestream) : tree :=
  match fuel with
  | O => Cut
  | S fuel' =>
      let br := buffered f.(r) in
      let leaf rd e := Leaf {| r := rd; filename := f.(filename); err := e |} in
      let inner t data fname :=
        nest fuel' {| r := stream t data; filename := fname; err := None |} in
      let zip_entries files :=
        Node (map (fun file =>
                     match file.(zip_Open) with
                     | inl e =>
                         Leaf {| r := bufio_NewReader nil_reader;
                                 filename := EmptyString; err := Some e |}
                     | inr data =>
                         inner zip_entry data
                               (f.(filename) ++ sep ++ file.(zip_Name))%string
                     end) files) in
      match Peek 512 br with
      | None => Cut
      | Some buf =>
          match K.(mime_Detect) buf with
          | Gzip =>
              match K.(gzip_NewReader) (content br) with
              | inl (e, n) => leaf (advance n br) (Some e)
              | inr (name, data) =>
                  Node [inner gzip_Reader data (f.(filename) ++ sep ++ name)%string]
              end
          | Bzip2 =>
              match stripped_name sep f.(filename) ".bz2" with
              | Some fname =>
                  Node [inner bzip2_reader (K.(bzip2_NewReader) (content br)) fname]
              | None => Cut
              end
          | Zip =>
              match f.(r) with
              | os_File whole _ (Some e) => leaf br (Some e)
              | os_File whole _ None =>
                  match K.(zip_NewReader) whole with
                  | inl e => leaf br (Some e)
                  | inr files => zip_entries files
                  end
              | os_Pipe _ =>
                  match K.(zip_NewReader) [] with
                  | inl e => leaf br (Some e)
                  | inr files => zip_entries files
                  end
              | _ => leaf br (Some NestError)
              end
          | Tar =>
              let '(entries, term) := K.(tar_NewReader) (content br) in
              Node (map (nest fuel') (tar_streams f.(filename) entries)
                      ++ [if is_EOF term then Leaf (end_marker tar_Reader term) else Cut])
          | Rar =>
              match K.(rardecode_NewReader) (content br) with
              | inl (e, n) => leaf (advance n br) (Some e)
              | inr (entries, term) =>
                  Node (map (nest fuel') (rar_streams f.(filename) entries)
                          ++ [Leaf (end_marker rardecode_Reader term)])
              end
          | Xz =>
              match K.(xz_NewReader) (content br) with
              | inl (e, n) => leaf (advance n br) (Some e)
              | inr data =>
                  match stripped_name sep f.(filename) ".xz" with
                  | Some fname => Node [inner xz_Reader data fname]
                  | None => Cut
                  end
              end
          | Lz4 =>
              match stripped_name sep f.(filename) ".lz4" with
              | Some fname =>
                  Node [inner lz4_Reader (K.(lz4_NewReader) (content br)) fname]
              | None => Cut
              end
          | other_type => leaf br f.(err)
          end
      end
  end.

End Nesting.

(** ** Predicates used in the statements *)

Definition is_bufio (rd : Reader) : bool :=
  match rd with bufio_Reader _ _ _ => true | _ => false end.

(** The dynamic type of the reader is *os.File. *)
Definition is_os_File (rd : Reader) : bool :=
  match rd with os_File _ _ _ | os_Pipe _ => true | _ => false end.

(** The handle supports random access: ReadAt, and a size from Stat. *)
Definition random_access (rd : Reader) : bool :=
  match rd with os_File _ _ _ => true | _ => false end.

Definition no_error (f : filestream) : bool :=
  match f.(err) with None => true | Some _ => false end.

(** The constructor of the decoder for the sniffed format [m] fails on [f]
    with error [e], having read [k] bytes through the buffered reader.  For
    zip this is a failure of Stat or of zip.NewReader, which reads the file by
    offset and leaves the buffered reader alone. *)
Inductive construction_fails (K : Codecs) (f : filestream)
  : mime_type -> error -> nat -> Prop :=
| gzip_fails e k :
    K.(gzip_NewReader) (content (buffered f.(r))) = inl (e, k) ->
    construction_fails K f Gzip e k
| xz_fails e k :
    K.(xz_NewReader) (content (buffered f.(r))) = inl (e, k) ->
    construction_fails K f Xz e k
| rar_fails e k :
    K.(rardecode_NewReader) (content (buffered f.(r))) = inl (e, k) ->
    construction_fails K f Rar e k
| zip_stat_fails whole off e :
    f.(r) = os_File whole off (Some e) ->
    construction_fails K f Zip e 0
| zip_fails whole off e :
    f.(r) = os_File whole off None ->
    K.(zip_NewReader) whole = inl e ->
    construction_fails K f Zip e 0
| zip_pipe_fails data e :
    f.(r) = os_Pipe data ->
    K.(zip_NewReader) [] = inl e ->
    construction_fails K f Zip e 0.

(** [m] is a compression-only format named by stripping [canon]; its decoder,
    of type [t], is built over [br] and yields [data]. *)
Inductive strips (K : Codecs) (br : Reader)
  : mime_type -> stream_type -> string -> bytes -> Prop :=
| strips_bzip2 :
    strips K br Bzip2 bzip2_reader ".bz2" (K.(bzip2_NewReader) (content br))
| strips_xz data :
    K.(xz_NewReader) (content br) = inr data ->
    strips K br Xz xz_Reader ".xz" data
| strips_lz4 :
    strips K br Lz4 lz4_Reader ".lz4" (K.(lz4_NewReader) (content br)).

(** The reader is a decoder, the reader of a zip entry, or the reader of an
    archive at one of its entries. *)
Definition is_stream (rd : Reader) : bool :=
  match rd with stream _ _ | archive_Reader _ _ => true | _ => false end.

Definition is_zip_entry (rd : Reader) : bool :=
  match rd with stream zip_entry _ => true | _ => false end.

(** The format sniffed from the peek at [f], if the peek does not panic. *)
Definition sniffed (K : Codecs) (f : filestream) : option mime_type :=
  match Peek 512 (buffered f.(r)) with
  | Some buf => Some (K.(mime_Detect) buf)
  | None => None
  end.

(** [f] as the zip branch sends it when its reader is no file. *)
Definition nest_error (f : filestream) : filestream :=
  {| r := buffered f.(r); filename := f.(filename); err := Some NestError |}.

(** Events of a given kind for the filestream numbered [j]. *)
Definition is_alloc_of (j : nat) (e : event) : bool :=
  match e with Alloc i => Nat.eqb i j | _ => false end.
Definition is_call_of (j : nat) (e : event) : bool :=
  match e with Call i _ => Nat.eqb i j | _ => false end.
Definition is_send_of (j : nat) (e : event) : bool :=
  match e with Send i _ => Nat.eqb i j | _ => false end.
Definition is_call (e : event) : bool :=
  match e with Call _ _ => true | _ => false end.
Definition is_alloc (e : event) : bool :=
  match e with Alloc _ => true | _ => false end.

Definition count (p : event -> bool) (ev : list event) : nat :=
  List.length (filter p ev).

(** What Next and NextWithError return for a filestream received, and at the
    end of the channel. *)
Definition next_of (f : filestream) : Reader * string * bool :=
  (f.(r), f.(filename), true).
Definition next_with_error_of (f : filestream) : Reader * string * option error * bool :=
  (f.(r), f.(filename), f.(err), true).
Definition no_more : Reader * string * bool := (nil_reader, EmptyString, false).
Definition no_more_with_error : Reader * string * option error * bool :=
  (nil_reader, EmptyString, None, false).

(** A session whose producer has been started, sends [q] and closes. *)
Definition serving (e : extractor) (q : list filestream) : Prop :=
  e.(e_once) = true /\ e.(e_c) = {| queue := q; after := closes |}
  /\ forallb (fun f => is_bufio f.(r)) q = true.

(** ** One frame of the walk, as data

    What a call of [extract] does before and between its recursive calls
    depends on the filestream alone: it stops (a panic), or it sends the
    filestream it was given, or it goes through a list of new filestreams,
    each of them sent as it is or passed to a recursive call, and then returns
    or panics.  [extract_plan] below proves that [extract] is [run_plan] of
    [plan_of]. *)
Inductive child : Type :=
| direct (f : filestream)        (* e.c <- &filestream{...} *)
| nested (f : filestream).       (* e.extract(&filestream{...}) *)

Inductive plan : Type :=
| stop (s : status)
| pass (f : filestream)
| open (cs : list child) (crash : bool).

Fixpoint run_children (rec : nat -> filestream -> cmd) (cs : list child)
         (crash : bool) : cmd :=
  match cs with
  | [] => if crash then panic else skip
  | direct f :: cs' => send_new f ;; run_children rec cs' crash
  | nested f :: cs' => extract_new rec f ;; run_children rec cs' crash
  end.

Definition run_plan (rec : nat -> filestream -> cmd) (id : nat) (p : plan) : cmd :=
  match p with
  | stop s => fun n => (s, n, [])
  | pass f => send id f
  | open cs crash => run_children rec cs crash
  end.

Section Plan.

Variable K : Codecs.
Variable sep : string.

Definition zip_child (fname : string) (file : zip_File) : child :=
  match file.(zip_Open) with
  | inl e => direct {| r := bufio_NewReader nil_reader; filename := EmptyString;
                       err := Some e |}
  | inr data => nested {| r := stream zip_entry data;
                          filename := (fname ++ sep ++ file.(zip_Name))%string;
                          err := None |}
  end.

Definition plan_of (f : filestream) : plan :=
  let br := buffered f.(r) in
  let pass_err rd e := pass {| r := rd; filename := f.(filename); err := Some e |} in
  let only t data fname :=
    open [nested {| r := stream t data; filename := fname; err := None |}] false in
  let stripped t data canon :=
    match stripped_name sep f.(filename) canon with
    | Some fname => only t data fname
    | None => stop Panic
    end in
  match Peek 512 br with
  | None => stop Panic
  | Some buf =>
      match K.(mime_Detect) buf with
      | Gzip =>
          match K.(gzip_NewReader) (content br) with
          | inl (e, n) => pass_err (advance n br) e
          | inr (name, data) => only gzip_Reader data (f.(filename) ++ sep ++ name)%string
          end
      | Bzip2 => stripped bzip2_reader (K.(bzip2_NewReader) (content br)) ".bz2"%string
      | Zip =>
          match f.(r) with
          | os_File whole _ (Some e) => pass_err br e
          | os_File whole _ None =>
              match K.(zip_NewReader) whole with
              | inl e => pass_err br e
              | inr files => open (map (zip_child f.(filename)) files) false
              end
          | os_Pipe _ =>
              match K.(zip_NewReader) [] with
              | inl e => pass_err br e
              | inr files => open (map (zip_child f.(filename)) files) false
              end
          | _ => pass_err br NestError
          end
      | Tar =>
          let '(entries, term) := K.(tar_NewReader) (content br) in
          if is_EOF term
          then open (map nested (tar_streams sep f.(filename) entries)
                       ++ [direct (end_marker tar_Reader term)]) false
          else open (map nested (tar_streams sep f.(filename) entries)) true
      | Rar =>
          match K.(rardecode_NewReader) (content br) with
          | inl (e, n) => pass_err (advance n br) e
          | inr (entries, term) =>
              open (map nested (rar_streams sep f.(filename) entries)
                      ++ [direct (end_marker rardecode_Reader term)]) false
          end
      | Xz =>
          match K.(xz_NewReader) (content br) with
          | inl (e, n) => pass_err (advance n br) e
          | inr data => stripped xz_Reader data ".xz"%string
          end
      | Lz4 => stripped lz4_Reader (K.(lz4_NewReader) (content br)) ".lz4"%string
      | other_type => pass {| r := br; filename := f.(filename); err := f.(err) |}
      end
  end.

End Plan.

(** What the filestreams a frame constructs look like: one that is sent at
    once has a bufio.Reader and an error; one that is passed to a recursive
    call has a decoder or entry stream as its reader and no error, and is a
    zip entry only in a frame [z] that enumerates a zip file. *)
Definition child_typed (z : bool) (c : child) : Prop :=
  match c with
  | direct f => is_bufio f.(r) = true /\ f.(err) <> None
  | nested f =>
      is_stream f.(r) = true /\ f.(err) = None
      /\ (is_zip_entry f.(r) = true -> z = true)
  end.

Definition enumerates_zip (K : Codecs) (f : filestream) : bool :=
  is_os_File f.(r) &&
  match sniffed K f with Some Zip => true | _ => false end.

(** ** The shape of a log

    [frame id f s n m ev]: a call of [extract] on the filestream [f] numbered
    [id], entered when [n] is the next free number, ends with status [s] and
    next free number [m] after the events [ev].  [children] is the same for
    the list a frame goes through. *)
Section Shape.

Variable K : Codecs.
Variable sep : string.

Inductive frame : nat -> filestream -> status -> nat -> nat -> list event -> Prop :=
| frame_no_fuel id f n :
    frame id f OutOfFuel n n []
| frame_stop id f n :
    plan_of K sep f = stop Panic ->
    frame id f Panic n n []
| frame_pass id f f' n :
    plan_of K sep f = pass f' ->
    frame id f Done n n [Send id f']
| frame_open id f cs crash s n m ev :
    plan_of K sep f = open cs crash ->
    children f cs crash s n m ev ->
    frame id f s n m ev
with children : filestream -> list child -> bool -> status -> nat -> nat
                -> list event -> Prop :=
| children_nil p crash n :
    children p [] crash (if crash then Panic else Done) n n []
| children_direct p f cs crash s n m ev :
    child_typed (enumerates_zip K p) (direct f) ->
    children p cs crash s (S n) m ev ->
    children p (direct f :: cs) crash s n m (Alloc n :: Send n f :: ev)
| children_nested p f cs crash s n n1 m ev1 ev2 :
    child_typed (enumerates_zip K p) (nested f) ->
    frame n f Done (S n) n1 ev1 ->
    children p cs crash s n1 m ev2 ->
    children p (nested f :: cs) crash s n m (Alloc n :: Call n f :: ev1 ++ ev2)
| children_nested_stop p f cs crash s n n1 ev1 :
    child_typed (enumerates_zip K p) (nested f) ->
    s <> Done ->
    frame n f s (S n) n1 ev1 ->
    children p (nested f :: cs) crash s n n1 (Alloc n :: Call n f :: ev1).

End Shape.

Scheme frame_min := Minimality for frame Sort Prop
  with children_min := Minimality for children Sort Prop.
Combined Scheme frame_children_ind from frame_min, children_min.

(** Properties of the filestreams named in a log. *)
Definition calls_are_streams (ev : list event) : Prop :=
  forall id f, In (Call id f) ev -> is_stream f.(r) = true /\ f.(err) = None.

Definition sends_are_buffered (ev : list event) : Prop :=
  forall id f, In (Send id f) ev -> is_bufio f.(r) = true.

Definition no_zip_entry (ev : list event) : Prop :=
  forall id f, In (Call id f) ev -> is_zip_entry f.(r) = false.

Definition nested_zips_sent (K : Codecs) (ev : list event) : Prop :=
  forall id f, In (Call id f) ev -> is_os_File f.(r) = false ->
               sniffed K f = Some Zip -> In (Send id (nest_error f)) ev.

(** The counts for the filestream numbered [j] in a log that constructs the
    filestreams numbered from [lo] to [hi - 1]: one of them is constructed
    once, passed to [extract] at most once and sent at most once, and sent
    once if it is never passed to [extract]; any other number does not occur. *)
Definition counts_ok (lo hi : nat) (ev : list event) (j : nat) : Prop :=
  (lo <= j < hi ->
   count (is_alloc_of j) ev = 1
   /\ count (is_call_of j) ev <= 1
   /\ count (is_send_of j) ev <= 1
   /\ (count (is_call_of j) ev = 0 -> count (is_send_of j) ev = 1))
  /\ (~ lo <= j < hi ->
      count (is_alloc_of j) ev = 0
      /\ count (is_call_of j) ev = 0
      /\ count (is_send_of j) ev = 0).

(** The filestreams numbered below [m] that no event of [ev] passes to
    [extract]. *)
Definition uncalled (ev : list event) (m : nat) : list nat :=
  filter (fun j => Nat.eqb (count (is_call_of j) ev) 0) (seq 0 m).

Definition is_send (e : event) : bool :=
  match e with Send _ _ => true | _ => false end.

(** The filestream numbered [j] is resolved exactly once in [ev]: passed to
    one call of [extract] and never sent, or sent once and never passed. *)
Definition resolved_once (ev : list event) (j : nat) : Prop :=
  (count (is_call_of j) ev = 1 /\ count (is_send_of j) ev = 0)
  \/ (count (is_call_of j) ev = 0 /\ count (is_send_of j) ev = 1).

(** It is handed on: passed to one call of [extract], which may send it once,
    or never passed and sent once. *)
Definition handed_on (ev : list event) (j : nat) : Prop :=
  (count (is_call_of j) ev = 1 /\ count (is_send_of j) ev <= 1)
  \/ (count (is_call_of j) ev = 0 /\ count (is_send_of j) ev = 1).

(** The structure of a child of a frame, given the structures [rec] of the
    filestreams passed to recursive calls. *)
Definition child_tree (rec : filestream -> tree) (c : child) : tree :=
  match c with
  | direct f => Leaf f
  | nested f => rec f
  end.

(** [f] is a multi-entry container that is enumerated, and [cs] are the
    filestreams built for its entries, in the order of the archive: for tar
    and rar the regular entries and then, unless a tar iteration ends with an
    error that is not io.EOF, the marker of the end; for zip every entry of
    the file. *)
Inductive container (K : Codecs) (sep : string) (f : filestream)
  : list child -> Prop :=
| tar_container entries term :
    sniffed K f = Some Tar ->
    K.(tar_NewReader) (content (buffered f.(r))) = (entries, term) ->
    container K sep f
      (map nested (tar_streams sep f.(filename) entries)
         ++ (if is_EOF term then [direct (end_marker tar_Reader term)] else []))
| rar_container entries term :
    sniffed K f = Some Rar ->
    K.(rardecode_NewReader) (content (buffered f.(r))) = inr (entries, term) ->
    container K sep f
      (map nested (rar_streams sep f.(filename) entries)
         ++ [direct (end_marker rardecode_Reader term)])
| zip_container whole off files :
    sniffed K f = Some Zip ->
    f.(r) = os_File whole off None ->
    K.(zip_NewReader) whole = inr files ->
    container K sep f (map (zip_child sep f.(filename)) files)
| zip_pipe_container data files :
    sniffed K f = Some Zip ->
    f.(r) = os_Pipe data ->
    K.(zip_NewReader) [] = inr files ->
    container K sep f (map (zip_child sep f.(filename)) files).

(** What the channel receives for one child: the filestream itself if it is
    sent at once, what the recursive call on it sends otherwise. *)
Definition delivered (rec : nat -> filestream -> cmd) (c : child)
           (l : list filestream) : Prop :=
  match c with
  | direct g => l = [g]
  | nested g => exists id n, l = sent (snd (rec id g n))
  end.

(** The call of [extract] on [f] sends [f] itself, as [f']: [f] is of
    unrecognized format, or it sniffs as zip and its reader is no *os.File,
    or the constructor of its decoder fails. *)
Inductive sends_itself (K : Codecs) (f : filestream) : filestream -> Prop :=
| sends_leaf :
    sniffed K f = Some other_type ->
    sends_itself K f {| r := buffered f.(r); filename := f.(filename); err := f.(err) |}
| sends_nest_error :
    sniffed K f = Some Zip ->
    is_os_File f.(r) = false ->
    sends_itself K f (nest_error f)
| sends_failure m e k :
    sniffed K f = Some m ->
    construction_fails K f m e k ->
    sends_itself K f {| r := advance k (buffered f.(r)); filename := f.(filename);
                        err := Some e |}.

(** In the log [ev] every filestream passed to [extract] that the call sends
    itself is sent by it, as the call leaves it and exactly once, and one
    that the call does not send itself is never sent. *)
Definition calls_resolved (K : Codecs) (ev : list event) : Prop :=
  forall j f, In (Call j f) ev ->
    (forall f', sends_itself K f f' ->
                In (Send j f') ev /\ count (is_send_of j) ev = 1)
    /\ ((forall f', ~ sends_itself K f f') -> count (is_send_of j) ev = 0).

(** The same with the plan of the frame, as the induction on the shape of a
    log needs it. *)
Definition passes_sent (K : Codecs) (sep : string) (ev : list event) : Prop :=
  forall j g, In (Call j g) ev ->
    (forall g', plan_of K sep g = pass g' -> In (Send j g') ev)
    /\ ((forall g', plan_of K sep g <> pass g') -> count (is_send_of j) ev = 0).

(** The bytes of an extension after its dot: no dot, no path separator. *)
Definition plain (l : list ascii) : bool :=
  forallb (fun c => negb (filepath.IsPathSeparator c) && negb (Ascii.eqb c "."%char)) l.

(** ** Predicates for further properties of the walk *)

(** [f] is a zip archive in a file, opened, that lists no entry: a regular
    file, or a file that cannot seek and on whose empty view zip.NewReader
    succeeds all the same. *)
Definition zip_without_entries (K : Codecs) (f : filestream) : Prop :=
  sniffed K f = Some Zip
  /\ ((exists whole off,
         f.(r) = os_File whole off None /\ K.(zip_NewReader) whole = inr [])
      \/ (exists data, f.(r) = os_Pipe data /\ K.(zip_NewReader) [] = inr [])).

(** What the channel receives for a child that is sent at once, or that is
    passed to a call which finds an unrecognized format. *)
Definition deliver (c : child) : filestream :=
  match c with
  | direct g => g
  | nested g => {| r := buffered g.(r); filename := g.(filename); err := g.(err) |}
  end.

(** The name [f] is sent under extends [root], or is empty on a filestream
    that carries an error. *)
Definition named_under (root : string) (f : filestream) : Prop :=
  (exists rest, f.(filename) = (root ++ rest)%string)
  \/ (f.(filename) = EmptyString /\ f.(err) <> None).

(** The filestream sent for an entry of a zip file that is of unrecognized
    format or cannot be opened. *)
Definition zip_leaf (sep fname : string) (file : zip_File) : filestream :=
  match file.(zip_Open) with
  | inl e => {| r := bufio_NewReader nil_reader; filename := EmptyString; err := Some e |}
  | inr data => {| r := bufio_NewReader (stream zip_entry data);
                   filename := (fname ++ sep ++ file.(zip_Name))%string; err := None |}
  end.

(** The name and the error a filestream is sent with. *)
Definition label (f : filestream) : string * option error := (f.(filename), f.(err)).

(** The label of the filestream sent for an entry of a tar or rar archive of
    unrecognized format. *)
Definition tar_label (sep fname : string) (e : tar_Header * bytes)
  : string * option error :=
  ((fname ++ sep ++ (fst e).(tar_Name))%string, None).

Definition rar_label (sep fname : string) (e : rar_FileHeader * bytes)
  : string * option error :=
  ((fname ++ sep ++ (fst e).(rar_Name))%string, None).

Definition tar_regular (e : tar_Header * bytes) : bool :=
  Byte.eqb (fst e).(Typeflag) tar_TypeReg.

Definition rar_file (e : rar_FileHeader * bytes) : bool := negb (fst e).(IsDir).

(** The names of the filestreams a frame constructs, the frame's own
    filestream being named [root]. *)
Definition child_named (root : string) (c : child) : Prop :=
  match c with
  | direct g => g.(filename) = EmptyString /\ g.(err) <> None
  | nested g => exists rest, g.(filename) = (root ++ rest)%string
  end.

(* ================================================================= *)
(** * Theorems *)

(** ** Readers *)

Lemma content_buffered (rd : Reader) : content (buffered rd) = content rd.
Proof. destruct rd; reflexivity. Qed.

Lemma content_advance (k : nat) (rd : Reader) :
  content (advance k (buffered rd)) = skipn k (content rd).
Proof.
  destruct rd; simpl; rewrite ?skipn_skipn; try reflexivity.
  f_equal. lia.
Qed.

Lemma is_bufio_buffered (rd : Reader) : is_bufio (buffered rd) = true.
Proof. destruct rd; reflexivity. Qed.

Lemma is_bufio_advance (k : nat) (rd : Reader) :
  is_bufio (advance k (buffered rd)) = true.
Proof. destruct rd; reflexivity. Qed.

Lemma advance_0_buffered_file whole off st :
  advance 0 (buffered (os_File whole off st)) = buffered (os_File whole off st).
Proof. reflexivity. Qed.

(** ** Unrecognized input (C7) *)

Lemma extract_unrecognized K sep fuel id f n buf :
  Peek 512 (buffered f.(r)) = Some buf ->
  K.(mime_Detect) buf = other_type ->
  extract K sep (S fuel) id f n =
    (Done, n, [Send id {| r := buffered f.(r); filename := f.(filename); err := f.(err) |}]).
Proof.
  intros HP HD. simpl. rewrite HP, HD. reflexivity.
Qed.

(** C7. An input whose sniffed format is unrecognized gives exactly one leaf:
    the session's pulls return the input's reader, buffered, under the
    input's name and with no error, then report exhaustion; the buffered
    reader yields the bytes of the input, the peek having consumed none; and
    the frame's only event is the send of the filestream it was given. *)
Theorem unrecognized_input_is_one_leaf K rd name fuel buf :
  Peek 512 (buffered rd) = Some buf ->
  K.(mime_Detect) buf = other_type ->
  pulls_with_error K 2 (S fuel) (New rd name) =
    [ (buffered rd, name, None, true); (nil_reader, EmptyString, None, false) ]
  /\ pulls K 2 (S fuel) (New rd name) =
    [ (buffered rd, name, true); (nil_reader, EmptyString, false) ]
  /\ content (buffered rd) = content rd
  /\ forall id f n,
      f.(r) = rd ->
      extract K ":" (S fuel) id f n =
        (Done, n, [Send id {| r := buffered rd; filename := f.(filename); err := f.(err) |}]).
Proof.
  intros HP HD.
  assert (HW : walk K (S fuel) (New rd name) =
               (Done, 1, [Alloc 0; Call 0 {| r := rd; filename := name; err := None |};
                          Send 0 {| r := buffered rd; filename := name; err := None |}])).
  { unfold walk, extract_new. cbn [New e_sep e_r e_filename].
    rewrite (@extract_unrecognized K ":" fuel 0 {| r := rd; filename := name; err := None |}
               1 buf HP HD).
    reflexivity. }
  assert (HB := is_bufio_buffered rd).
  repeat split.
  - unfold pulls_with_error, NextWithError, once_Do. simpl e_once. cbv iota.
    rewrite HW. simpl. destruct (buffered rd); try discriminate. reflexivity.
  - unfold pulls, Next, once_Do. simpl e_once. cbv iota.
    rewrite HW. simpl. destruct (buffered rd); try discriminate. reflexivity.
  - apply content_buffered.
  - intros id f n <-. apply extract_unrecognized with (buf := buf); assumption.
Qed.

Lemma unrecognized_input_is_one_leaf_witness :
  pulls_with_error Toy.codecs 2 1 (New (stream foreign_reader (Toy.B "plain text")) "x.txt") =
    [ (buffered (stream foreign_reader (Toy.B "plain text")), "x.txt"%string, None, true);
      (nil_reader, EmptyString, None, false) ].
Proof.
  refine (proj1 (@unrecognized_input_is_one_leaf Toy.codecs
                   (stream foreign_reader (Toy.B "plain text")) "x.txt" 0
                   (Toy.B "plain text") _ _));
    reflexivity.
Defined.

(** ** A zip payload over a handle that is not a file (C4) *)

(** C4 as the specification states it fails on a handle that is an *os.File
    and cannot seek, such as a pipe or the standard input: the type test of
    the zip branch holds for it, Stat reports the size 0, zip.NewReader
    rejects the empty view, and the filestream is sent with that error.  No
    NestError is sent. *)
Lemma zip_on_a_pipe_is_sent_with_the_zip_error :
  let f := {| r := os_Pipe (Toy.mk_zip [Toy.entry "f" "a" (Toy.B "1")]);
              filename := "x.zip"; err := None |} in
  sniffed Toy.codecs f = Some Zip
  /\ random_access f.(r) = false
  /\ extract Toy.codecs ":" 1 0 f 1 =
       (Done, 1, [Send 0 {| r := buffered f.(r); filename := "x.zip";
                            err := Some Toy.ErrHeader |}])
  /\ Toy.ErrHeader <> NestError
  /\ ~ In (Send 0 (nest_error f)) (snd (extract Toy.codecs ":" 1 0 f 1)).
Proof.
  intro f. split; [reflexivity |]. split; [reflexivity |]. split; [reflexivity |].
  split; [discriminate |]. intros [H | []]. discriminate H.
Qed.

(** C4 (amended). When the sniffed format is zip and the filestream's reader
    is not an *os.File, the frame returns without a panic and without a
    recursive call: its one event is the send of the filestream with
    NestError attached and the buffered reader, which yields every byte of
    the input from its start. *)
Theorem zip_without_file_gives_NestError K sep fuel id f n buf :
  Peek 512 (buffered f.(r)) = Some buf ->
  K.(mime_Detect) buf = Zip ->
  is_os_File f.(r) = false ->
  extract K sep (S fuel) id f n =
    (Done, n, [Send id {| r := buffered f.(r); filename := f.(filename);
                          err := Some NestError |}])
  /\ content (buffered f.(r)) = content f.(r).
Proof.
  intros HP HD HF. split; [| apply content_buffered].
  simpl. rewrite HP, HD.
  destruct (r f); try discriminate; reflexivity.
Qed.

Lemma zip_without_file_gives_NestError_witness :
  let f := {| r := stream gzip_Reader (Toy.mk_zip [Toy.entry "f" "a" (Toy.B "1")]);
              filename := "x.gz:x.zip"; err := None |} in
  extract Toy.codecs ":" 1 7 f 8 =
    (Done, 8, [Send 7 {| r := buffered f.(r); filename := "x.gz:x.zip";
                         err := Some NestError |}])
  /\ content (buffered f.(r)) = content f.(r).
Proof.
  intro f.
  apply (@zip_without_file_gives_NestError Toy.codecs ":" 0 7 f 8
           (Toy.mk_zip [Toy.entry "f" "a" (Toy.B "1")])); reflexivity.
Defined.

(** ** Decoder construction failure (C5) *)

(** C5 as the specification states it fails for gzip: the constructor has
    read the ten header bytes through the buffered reader before it rejects
    them, and the reader that is sent starts after them. *)
Lemma gzip_failure_reader_has_advanced :
  let f := {| r := stream foreign_reader (Toy.B "G?not a gzip stream at all");
              filename := "x.gz"; err := None |} in
  exists f',
    extract Toy.codecs ":" 1 0 f 1 = (Done, 1, [Send 0 f'])
    /\ construction_fails Toy.codecs f Gzip Toy.ErrHeader 10
    /\ f'.(err) = Some Toy.ErrHeader
    /\ content f'.(r) = Toy.B "ip stream at all"
    /\ content f'.(r) <> content f.(r).
Proof.
  intro f. eexists. split; [reflexivity |].
  split; [apply gzip_fails; reflexivity |].
  split; [reflexivity |]. split; [reflexivity |].
  vm_compute. discriminate.
Qed.

(** C5 (amended). When the constructor of the decoder for the sniffed format
    (gzip, xz, rar, zip) fails, the frame's one event is the send of the
    filestream it was given, under its name, with the construction error
    attached and with the buffered reader in the state the constructor left
    it in: past the [k] bytes the constructor read.  For zip, whose
    constructor reads the file by offset, the buffered reader still yields
    the input from its start. *)
Theorem construction_failure_gives_one_error_leaf K sep fuel id f n buf m e k :
  Peek 512 (buffered f.(r)) = Some buf ->
  K.(mime_Detect) buf = m ->
  construction_fails K f m e k ->
  extract K sep (S fuel) id f n =
    (Done, n, [Send id {| r := advance k (buffered f.(r)); filename := f.(filename);
                          err := Some e |}])
  /\ content (advance k (buffered f.(r))) = skipn k (content f.(r))
  /\ (m = Zip -> content (advance k (buffered f.(r))) = content f.(r)).
Proof.
  intros HP HD HF.
  split; [| split; [apply content_advance |]].
  - simpl. rewrite HP, HD.
    destruct HF as [e k H | e k H | e k H | whole off e H | whole off e H HZ
                   | data e H HZ].
    + rewrite H. reflexivity.
    + rewrite H. reflexivity.
    + rewrite H. reflexivity.
    + rewrite H. reflexivity.
    + rewrite H, HZ. reflexivity.
    + rewrite H, HZ. reflexivity.
  - intros ->. inversion HF; subst; rewrite content_advance; reflexivity.
Qed.

Lemma construction_failure_gives_one_error_leaf_witness :
  let f := {| r := os_File (Toy.B "Z?broken") 0 None; filename := "x.zip"; err := None |} in
  extract Toy.codecs ":" 1 0 f 1 =
    (Done, 1, [Send 0 {| r := advance 0 (buffered f.(r)); filename := "x.zip";
                         err := Some Toy.ErrHeader |}])
  /\ content (advance 0 (buffered f.(r))) = skipn 0 (content f.(r))
  /\ (Zip = Zip -> content (advance 0 (buffered f.(r))) = content f.(r)).
Proof.
  intro f.
  apply (@construction_failure_gives_one_error_leaf Toy.codecs ":" 0 0 f 1
           (Toy.B "Z?broken") Zip Toy.ErrHeader 0).
  - reflexivity.
  - reflexivity.
  - apply (@zip_fails Toy.codecs f (Toy.B "Z?broken") 0 Toy.ErrHeader); reflexivity.
Defined.

(** ** Next and NextWithError (C6) *)

Section Pulls.

Variable K : Codecs.
Variable fuel : nat.

Lemma serving_with_queue e q q' :
  serving e q -> forallb (fun f => is_bufio f.(r)) q' = true ->
  serving (with_queue e q') q'.
Proof.
  intros (Ho & Hc & _) Hq. unfold serving, with_queue. simpl.
  rewrite Hc. simpl. auto.
Qed.

Lemma Next_loop_filter e q0 q :
  serving e q0 ->
  forallb (fun f => is_bufio f.(r)) q = true ->
  match filter no_error q with
  | [] => Next_loop e q = Returns no_more (with_queue e [])
  | f :: l =>
      exists rest,
        Next_loop e q = Returns (next_of f) (with_queue e rest)
        /\ filter no_error rest = l
        /\ forallb (fun f => is_bufio f.(r)) rest = true
  end.
Proof.
  intros (Ho & Hc & _). induction q as [| fs q IH]; intros Hq.
  - simpl. rewrite Hc. reflexivity.
  - simpl in Hq. apply andb_prop in Hq. destruct Hq as [Hb Hq].
    simpl. unfold no_error at 1. destruct (err fs) eqn:E.
    + apply IH, Hq.
    + exists q. destruct (r fs) eqn:Er; try discriminate.
      unfold next_of. rewrite Er. auto.
Qed.

Lemma pulls_filter k : forall e q,
  serving e q ->
  pulls K k fuel e =
    firstn k (map next_of (filter no_error q))
      ++ repeat no_more (k - List.length (filter no_error q)).
Proof.
  induction k as [| k IH]; intros e q Hs; [reflexivity |].
  assert (Hs' := Hs). destruct Hs' as (Ho & Hc & Hq).
  simpl pulls. unfold Next, once_Do. rewrite Ho, Hc. simpl queue.
  pose proof (@Next_loop_filter e q q Hs Hq) as HN.
  destruct (filter no_error q) as [| f l] eqn:EF.
  - rewrite HN. rewrite (IH _ []).
    + simpl. rewrite firstn_nil, Nat.sub_0_r. reflexivity.
    + apply serving_with_queue with (q := q); auto.
  - destruct HN as (rest & -> & HF & HB).
    rewrite (IH _ rest).
    + rewrite HF. reflexivity.
    + apply serving_with_queue with (q := q); auto.
Qed.

Lemma pulls_with_error_all k : forall e q,
  serving e q ->
  pulls_with_error K k fuel e =
    firstn k (map next_with_error_of q)
      ++ repeat no_more_with_error (k - List.length q).
Proof.
  induction k as [| k IH]; intros e q Hs; [reflexivity |].
  assert (Hs' := Hs). destruct Hs' as (Ho & Hc & Hq).
  simpl pulls_with_error. unfold NextWithError, once_Do. rewrite Ho, Hc. simpl queue.
  destruct q as [| fs q].
  - simpl after. cbv iota. rewrite (IH _ []).
    + simpl. rewrite firstn_nil, Nat.sub_0_r. reflexivity.
    + apply serving_with_queue with (q := @nil filestream); auto.
  - simpl in Hq. apply andb_prop in Hq. destruct Hq as [Hb Hq].
    assert (Hs2 : serving (with_queue e q) q)
      by (apply serving_with_queue with (q := fs :: q); auto).
    destruct fs as [rd nm er]. simpl in Hb.
    destruct rd; try discriminate.
    cbn [r filename err]. rewrite (IH _ q Hs2). reflexivity.
Qed.

(** C6. On a started session whose producer sends the filestreams [q] and
    closes the channel, [k] successive calls of Next return, in order, the
    reader and name of the filestreams of [q] that carry no error, each with
    hasMore = true, and from then on (nil, "", false): the filestreams with
    an error are dropped and never returned.  [k] successive calls of
    NextWithError return every filestream of [q] with its error, then
    (nil, "", nil, false). *)
Theorem Next_skips_errors_NextWithError_returns_all e q k :
  serving e q ->
  pulls K k fuel e =
    firstn k (map next_of (filter no_error q))
      ++ repeat no_more (k - List.length (filter no_error q))
  /\ pulls_with_error K k fuel e =
    firstn k (map next_with_error_of q)
      ++ repeat no_more_with_error (k - List.length q)
  /\ (forall rd name e',
        Next K fuel e = Returns (rd, name, true) e' ->
        exists f, In f q /\ f.(err) = None /\ f.(r) = rd /\ f.(filename) = name).
Proof.
  intros Hs. split; [apply pulls_filter, Hs |].
  split; [apply pulls_with_error_all, Hs |].
  intros rd name e' HN.
  assert (Hs' := Hs). destruct Hs' as (Ho & Hc & Hq).
  unfold Next, once_Do in HN. rewrite Ho, Hc in HN. simpl queue in HN.
  pose proof (@Next_loop_filter e q q Hs Hq) as HL.
  destruct (filter no_error q) as [| f l] eqn:EF.
  - rewrite HL in HN. discriminate.
  - destruct HL as (rest & HL & _). rewrite HL in HN.
    injection HN as <- <- _.
    assert (HI : In f (filter no_error q)) by (rewrite EF; left; reflexivity).
    apply filter_In in HI. destruct HI as [HI Hne].
    exists f. repeat split; auto.
    unfold no_error in Hne. destruct (err f); [discriminate | reflexivity].
Qed.

End Pulls.

(** ** The frame of [extract] is its plan *)

Section PlanCorrect.

Variable K : Codecs.
Variable sep : string.
Variable rec : nat -> filestream -> cmd.

Lemma andThen_skip (c : cmd) n : (c ;; skip) n = c n.
Proof.
  unfold andThen, skip. destruct (c n) as [[s m] ev].
  destruct s; try reflexivity. rewrite app_nil_r. reflexivity.
Qed.

Lemma andThen_ext (a b b' : cmd) n :
  (forall m, b m = b' m) -> (a ;; b) n = (a ;; b') n.
Proof.
  intros H. unfold andThen. destruct (a n) as [[s m] ev].
  destruct s; try reflexivity. rewrite H. reflexivity.
Qed.

Lemma run_children_app cs1 cs2 crash n :
  run_children rec (cs1 ++ cs2) crash n =
    match run_children rec cs1 false n with
    | (Done, n1, ev1) =>
        let '(s, n2, ev2) := run_children rec cs2 crash n1 in (s, n2, ev1 ++ ev2)
    | res => res
    end.
Proof.
  revert n. induction cs1 as [| c cs1 IH]; intros n.
  - simpl. destruct (run_children rec cs2 crash n) as [[s m] ev]. reflexivity.
  - assert (Hstep : forall (a : cmd) n,
               (a ;; run_children rec (cs1 ++ cs2) crash) n =
                 match (a ;; run_children rec cs1 false) n with
                 | (Done, n1, ev1) =>
                     let '(s, n2, ev2) := run_children rec cs2 crash n1 in
                     (s, n2, ev1 ++ ev2)
                 | res => res
                 end).
    { intros a k. unfold andThen. destruct (a k) as [[s m] ev].
      destruct s; try reflexivity.
      rewrite IH. destruct (run_children rec cs1 false m) as [[s1 m1] ev1].
      destruct s1; try reflexivity.
      destruct (run_children rec cs2 crash m1) as [[s2 m2] ev2].
      rewrite app_assoc. reflexivity. }
    destruct c; simpl; apply Hstep.
Qed.

Lemma zip_loop_plan fname files n :
  zip_loop sep rec fname files n =
    run_children rec (map (zip_child sep fname) files) false n.
Proof.
  revert n. induction files as [| file files IH]; intros n; [reflexivity |].
  simpl. unfold zip_child at 1. destruct (zip_Open file); apply andThen_ext, IH.
Qed.

Lemma tar_loop_plan fname entries term : forall x n,
  tar_loop sep rec fname (archive_Reader tar_Reader (x :: map snd entries))
           entries term n =
    if is_EOF term
    then run_children rec (map nested (tar_streams sep fname entries)
                             ++ [direct (end_marker tar_Reader term)]) false n
    else run_children rec (map nested (tar_streams sep fname entries)) true n.
Proof.
  induction entries as [| [hdr data] entries IH]; intros x n.
  - simpl. destruct (is_EOF term); [| reflexivity].
    simpl. rewrite andThen_skip. reflexivity.
  - cbn [tar_loop tar_streams map snd archive_Next].
    destruct (Byte.eqb (Typeflag hdr) tar_TypeReg).
    + cbn [map app run_children].
      destruct (is_EOF term) eqn:E.
      * apply andThen_ext. intros m. rewrite IH. reflexivity.
      * apply andThen_ext. intros m. rewrite IH. reflexivity.
    + apply IH.
Qed.

Lemma rar_loop_plan fname entries term : forall x n,
  rar_loop sep rec fname (archive_Reader rardecode_Reader (x :: map snd entries))
           entries term n =
    run_children rec (map nested (rar_streams sep fname entries)
                        ++ [direct (end_marker rardecode_Reader term)]) false n.
Proof.
  induction entries as [| [hdr data] entries IH]; intros x n.
  - simpl. rewrite andThen_skip. reflexivity.
  - cbn [rar_loop rar_streams map snd archive_Next].
    destruct (IsDir hdr).
    + apply IH.
    + cbn [map app run_children]. apply andThen_ext. intros m. apply IH.
Qed.

Lemma strip_and_extract_plan f t data canon n :
  strip_and_extract sep rec f t data canon n =
    run_plan rec 0
      match stripped_name sep f.(filename) canon with
      | Some fname =>
          open [nested {| r := stream t data; filename := fname; err := None |}] false
      | None => stop Panic
      end n.
Proof.
  unfold strip_and_extract. destruct (stripped_name sep (filename f) canon).
  - simpl. rewrite andThen_skip. reflexivity.
  - reflexivity.
Qed.

End PlanCorrect.

Lemma extract_plan K sep fuel id f n :
  extract K sep (S fuel) id f n =
    run_plan (extract K sep fuel) id (plan_of K sep f) n.
Proof.
  simpl extract. unfold plan_of.
  destruct (Peek 512 (buffered (r f))) as [buf |]; [| reflexivity].
  destruct (mime_Detect K buf).
  - destruct (gzip_NewReader K _) as [[e k] | [name data]]; [reflexivity |].
    simpl. rewrite andThen_skip. reflexivity.
  - rewrite strip_and_extract_plan.
    destruct (stripped_name sep (filename f) ".bz2"); reflexivity.
  - destruct (r f) as [| whole off [e |] | | | pipe |]; try reflexivity;
      (destruct (zip_NewReader K _); [reflexivity | apply zip_loop_plan]).
  - destruct (tar_NewReader K _) as [entries term].
    unfold archive_NewReader.
    rewrite tar_loop_plan. destruct (is_EOF term); reflexivity.
  - destruct (rardecode_NewReader K _) as [[e k] | [entries term]]; [reflexivity |].
    apply rar_loop_plan.
  - destruct (xz_NewReader K _) as [[e k] | data]; [reflexivity |].
    rewrite strip_and_extract_plan.
    destruct (stripped_name sep (filename f) ".xz"); reflexivity.
  - rewrite strip_and_extract_plan.
    destruct (stripped_name sep (filename f) ".lz4"); reflexivity.
  - reflexivity.
Qed.

(** ** What the plans hold *)

Lemma plan_of_pass K sep f f' :
  plan_of K sep f = pass f' ->
  is_bufio f'.(r) = true /\ f'.(filename) = f.(filename).
Proof.
  unfold plan_of.
  pose proof (is_bufio_buffered (r f)) as Hb.
  assert (Ha : forall k, is_bufio (advance k (buffered (r f))) = true)
    by (intro k; apply is_bufio_advance).
  destruct (Peek 512 (buffered (r f))) as [buf |]; [| discriminate].
  destruct (mime_Detect K buf).
  - destruct (gzip_NewReader K _) as [[e k] | [name data]]; [| discriminate].
    intros [= <-]. simpl. auto.
  - destruct (stripped_name sep (filename f) ".bz2"); discriminate.
  - destruct (r f) as [| whole off [e |] | | | pipe |] eqn:E;
      try (intros [= <-]; simpl; auto);
      (destruct (zip_NewReader K _); [| discriminate]);
      intros [= <-]; simpl; auto.
  - destruct (tar_NewReader K _) as [entries term].
    destruct (is_EOF term); discriminate.
  - destruct (rardecode_NewReader K _) as [[e k] | [entries term]]; [| discriminate].
    intros [= <-]. simpl. auto.
  - destruct (xz_NewReader K _) as [[e k] | data].
    + intros [= <-]. simpl. auto.
    + destruct (stripped_name sep (filename f) ".xz"); discriminate.
  - destruct (stripped_name sep (filename f) ".lz4"); discriminate.
  - intros [= <-]. simpl. auto.
Qed.

Lemma tar_streams_In sep fname entries g :
  In g (tar_streams sep fname entries) ->
  exists hdr data later,
    g = {| r := archive_Reader tar_Reader (data :: later);
           filename := (fname ++ sep ++ hdr.(tar_Name))%string; err := None |}
    /\ In (hdr, data) entries
    /\ Byte.eqb hdr.(Typeflag) tar_TypeReg = true.
Proof.
  induction entries as [| [hdr data] rest IH]; simpl; [contradiction |].
  destruct (Byte.eqb (Typeflag hdr) tar_TypeReg) eqn:E.
  - intros [<- | H].
    + exists hdr, data, (map snd rest). auto.
    + destruct (IH H) as (h & d & l & Hg & Hin & Hreg). exists h, d, l. auto.
  - intros H. destruct (IH H) as (h & d & l & Hg & Hin & Hreg). exists h, d, l. auto.
Qed.

Lemma rar_streams_In sep fname entries g :
  In g (rar_streams sep fname entries) ->
  exists hdr data later,
    g = {| r := archive_Reader rardecode_Reader (data :: later);
           filename := (fname ++ sep ++ hdr.(rar_Name))%string; err := None |}
    /\ In (hdr, data) entries
    /\ hdr.(IsDir) = false.
Proof.
  induction entries as [| [hdr data] rest IH]; simpl; [contradiction |].
  destruct (IsDir hdr) eqn:E.
  - intros H. destruct (IH H) as (h & d & l & Hg & Hin & Hreg). exists h, d, l. auto.
  - intros [<- | H].
    + exists hdr, data, (map snd rest). auto.
    + destruct (IH H) as (h & d & l & Hg & Hin & Hreg). exists h, d, l. auto.
Qed.

Lemma tar_streams_typed sep fname entries z :
  Forall (child_typed z) (map nested (tar_streams sep fname entries)).
Proof.
  apply Forall_forall. intros c Hc.
  apply in_map_iff in Hc. destruct Hc as (f' & <- & Hf).
  apply tar_streams_In in Hf. destruct Hf as (hdr & data & later & -> & _).
  simpl. repeat split. discriminate.
Qed.

Lemma rar_streams_typed sep fname entries z :
  Forall (child_typed z) (map nested (rar_streams sep fname entries)).
Proof.
  apply Forall_forall. intros c Hc.
  apply in_map_iff in Hc. destruct Hc as (f' & <- & Hf).
  apply rar_streams_In in Hf. destruct Hf as (hdr & data & later & -> & _).
  simpl. repeat split. discriminate.
Qed.

Lemma end_marker_typed t e z : child_typed z (direct (end_marker t e)).
Proof. simpl. split; [reflexivity | discriminate]. Qed.

Lemma only_child_typed t data fname z :
  t <> zip_entry ->
  Forall (child_typed z)
         [nested {| r := stream t data; filename := fname; err := None |}].
Proof.
  intros Ht. constructor; [| constructor]. simpl. repeat split.
  destruct t; try discriminate. congruence.
Qed.

Lemma plan_of_open K sep f cs crash :
  plan_of K sep f = open cs crash ->
  Forall (child_typed (enumerates_zip K f)) cs.
Proof.
  unfold plan_of, enumerates_zip, sniffed.
  destruct (Peek 512 (buffered (r f))) as [buf |]; [| discriminate].
  destruct (mime_Detect K buf).
  - destruct (gzip_NewReader K _) as [[e k] | [name data]]; [discriminate |].
    intros [= <- <-]. apply only_child_typed. discriminate.
  - destruct (stripped_name sep (filename f) ".bz2"); [| discriminate].
    intros [= <- <-]. apply only_child_typed. discriminate.
  - destruct (r f) as [| whole off [e |] | | | pipe |] eqn:E; try discriminate;
      (destruct (zip_NewReader K _) as [e | files]; [discriminate |]);
      intros [= <- <-]; apply Forall_forall; intros c Hc;
      apply in_map_iff in Hc; destruct Hc as (file & <- & _);
      unfold zip_child; destruct (zip_Open file); simpl;
      [split; [reflexivity | discriminate] | repeat split
      | split; [reflexivity | discriminate] | repeat split].
  - destruct (tar_NewReader K _) as [entries term].
    destruct (is_EOF term); intros [= <- <-].
    + apply Forall_app. split; [apply tar_streams_typed |].
      constructor; [apply end_marker_typed | constructor].
    + apply tar_streams_typed.
  - destruct (rardecode_NewReader K _) as [[e k] | [entries term]]; [discriminate |].
    intros [= <- <-].
    apply Forall_app. split; [apply rar_streams_typed |].
    constructor; [apply end_marker_typed | constructor].
  - destruct (xz_NewReader K _) as [[e k] | data]; [discriminate |].
    destruct (stripped_name sep (filename f) ".xz"); [| discriminate].
    intros [= <- <-]. apply only_child_typed. discriminate.
  - destruct (stripped_name sep (filename f) ".lz4"); [| discriminate].
    intros [= <- <-]. apply only_child_typed. discriminate.
  - discriminate.
Qed.

Lemma plan_of_stop K sep f s : plan_of K sep f = stop s -> s = Panic.
Proof.
  unfold plan_of.
  destruct (Peek 512 (buffered (r f))) as [buf |]; [| congruence].
  destruct (mime_Detect K buf);
    repeat match goal with
           | |- context [match ?x with _ => _ end] => destruct x
           end; congruence.
Qed.

(** ** Every run of [extract] has the shape of a frame *)

Lemma run_children_shape K sep (rec : nat -> filestream -> cmd) p :
  (forall id f n, let '(s, m, ev) := rec id f n in frame K sep id f s n m ev) ->
  forall cs crash n,
    Forall (child_typed (enumerates_zip K p)) cs ->
    let '(s, m, ev) := run_children rec cs crash n in
    children K sep p cs crash s n m ev.
Proof.
  intros Hrec cs crash. induction cs as [| c cs IH]; intros n Hcs.
  - destruct crash; [apply (children_nil K sep p true n) | apply (children_nil K sep p false n)].
  - inversion Hcs as [| c' cs' Hc Hcs']; subst.
    destruct c as [f | f]; simpl.
    + unfold andThen, send_new.
      specialize (IH (S n) Hcs').
      destruct (run_children rec cs crash (S n)) as [[s m] ev].
      simpl. apply children_direct; assumption.
    + unfold andThen, extract_new.
      specialize (Hrec n f (S n)).
      destruct (rec n f (S n)) as [[s1 n1] ev1].
      destruct s1.
      * specialize (IH n1 Hcs').
        destruct (run_children rec cs crash n1) as [[s m] ev2].
        simpl. apply children_nested with (n1 := n1); assumption.
      * apply children_nested_stop; [assumption | discriminate | assumption].
      * apply children_nested_stop; [assumption | discriminate | assumption].
Qed.

Lemma extract_shape K sep fuel :
  forall id f n,
    let '(s, m, ev) := extract K sep fuel id f n in frame K sep id f s n m ev.
Proof.
  induction fuel as [| fuel IH]; intros id f n.
  - simpl. apply frame_no_fuel.
  - rewrite extract_plan.
    destruct (plan_of K sep f) as [s | f' | cs crash] eqn:E; simpl.
    + pose proof (@plan_of_stop K sep f s E) as ->. apply frame_stop, E.
    + apply frame_pass, E.
    + pose proof (@run_children_shape K sep (extract K sep fuel) f IH cs crash n
                    (@plan_of_open K sep f cs crash E)) as H.
      destruct (run_children (extract K sep fuel) cs crash n) as [[s m] ev].
      apply frame_open with (cs := cs) (crash := crash); assumption.
Qed.

(** ** Readers of the filestreams in a log *)

Section Typing.

Variable K : Codecs.
Variable sep : string.

Lemma shape_typed :
  (forall id f s n m ev,
      frame K sep id f s n m ev -> calls_are_streams ev /\ sends_are_buffered ev)
  /\ (forall p cs crash s n m ev,
         children K sep p cs crash s n m ev ->
         calls_are_streams ev /\ sends_are_buffered ev).
Proof.
  apply frame_children_ind; unfold calls_are_streams, sends_are_buffered.
  - intros. split; intros ? ? [].
  - intros. split; intros ? ? [].
  - intros id f f' n E. split; intros id' g [H | []]; [discriminate |].
    injection H as <- <-. apply (@plan_of_pass K sep f f' E).
  - intros. assumption.
  - intros. split; intros ? ? [].
  - intros p f cs crash s n m ev [Hb _] _ [IHc IHs]. split; intros id' g Hin.
    + destruct Hin as [H | [H | H]]; try discriminate. eauto.
    + destruct Hin as [H | [H | H]]; try discriminate; [| eauto].
      injection H as <- <-. exact Hb.
  - intros p f cs crash s n n1 m ev1 ev2 (Hs & He & _) _ [IH1c IH1s] _ [IH2c IH2s].
    split; intros id' g Hin.
    + destruct Hin as [H | [H | H]]; try discriminate.
      * injection H as <- <-. auto.
      * apply in_app_or in H. destruct H; eauto.
    + destruct Hin as [H | [H | H]]; try discriminate.
      apply in_app_or in H. destruct H; eauto.
  - intros p f cs crash s n n1 ev1 (Hs & He & _) _ _ [IH1c IH1s].
    split; intros id' g Hin.
    + destruct Hin as [H | [H | H]]; try discriminate; [| eauto].
      injection H as <- <-. auto.
    + destruct Hin as [H | [H | H]]; try discriminate. eauto.
Qed.

Lemma enumerates_zip_stream f :
  is_stream f.(r) = true -> enumerates_zip K f = false.
Proof.
  unfold enumerates_zip. destruct (r f); try discriminate; reflexivity.
Qed.

Lemma shape_no_zip_entry :
  (forall id f s n m ev,
      frame K sep id f s n m ev -> enumerates_zip K f = false -> no_zip_entry ev)
  /\ (forall p cs crash s n m ev,
         children K sep p cs crash s n m ev ->
         enumerates_zip K p = false -> no_zip_entry ev).
Proof.
  apply frame_children_ind; unfold no_zip_entry.
  - intros; contradiction.
  - intros; contradiction.
  - intros id f f' n E _ id' g [H | []]. discriminate.
  - intros. eauto.
  - intros; contradiction.
  - intros p f cs crash s n m ev _ _ IH Hz id' g Hin.
    destruct Hin as [H | [H | H]]; try discriminate. eauto.
  - intros p f cs crash s n n1 m ev1 ev2 (Hs & He & Hzip) _ IH1 _ IH2 Hz id' g Hin.
    destruct Hin as [H | [H | H]]; try discriminate.
    + injection H as <- <-. rewrite Hz in Hzip.
      destruct (is_zip_entry (r f)); [| reflexivity].
      discriminate Hzip. reflexivity.
    + apply in_app_or in H. destruct H.
      * apply (IH1 (enumerates_zip_stream f Hs) _ _ H).
      * eauto.
  - intros p f cs crash s n n1 ev1 (Hs & He & Hzip) _ _ IH1 Hz id' g Hin.
    destruct Hin as [H | [H | H]]; try discriminate.
    + injection H as <- <-. rewrite Hz in Hzip.
      destruct (is_zip_entry (r f)); [| reflexivity].
      discriminate Hzip. reflexivity.
    + apply (IH1 (enumerates_zip_stream f Hs) _ _ H).
Qed.

Lemma plan_of_nested_zip f :
  is_os_File f.(r) = false -> sniffed K f = Some Zip ->
  plan_of K sep f = pass (nest_error f).
Proof.
  unfold sniffed, plan_of, nest_error. intros Hf Hz.
  destruct (Peek 512 (buffered (r f))) as [buf |]; [| discriminate].
  injection Hz as ->. destruct (r f); try discriminate; reflexivity.
Qed.

Lemma shape_nested_zip :
  (forall id f s n m ev,
      frame K sep id f s n m ev -> s <> OutOfFuel ->
      (is_os_File f.(r) = false -> sniffed K f = Some Zip ->
       ev = [Send id (nest_error f)])
      /\ nested_zips_sent K ev)
  /\ (forall p cs crash s n m ev,
         children K sep p cs crash s n m ev -> s <> OutOfFuel ->
         nested_zips_sent K ev).
Proof.
  apply frame_children_ind; unfold nested_zips_sent.
  - intros id f n H. contradiction H; reflexivity.
  - intros id f n E _. split.
    + intros Hf Hz. rewrite (plan_of_nested_zip f Hf Hz) in E. discriminate.
    + intros ? ? [].
  - intros id f f' n E _. split.
    + intros Hf Hz. rewrite (plan_of_nested_zip f Hf Hz) in E.
      injection E as <-. reflexivity.
    + intros id' g [H | []]. discriminate.
  - intros id f cs crash s n m ev E _ IH Hs. split; [| auto].
    intros Hf Hz. rewrite (plan_of_nested_zip f Hf Hz) in E. discriminate.
  - intros; contradiction.
  - intros p f cs crash s n m ev _ _ IH Hs id' g Hin Hf Hz.
    destruct Hin as [H | [H | H]]; try discriminate.
    right; right. eauto.
  - intros p f cs crash s n n1 m ev1 ev2 _ _ IH1 _ IH2 Hs id' g Hin Hf Hz.
    destruct IH1 as [IH1a IH1b]; [discriminate |].
    destruct Hin as [H | [H | H]]; try discriminate.
    + injection H as <- <-. right; right. apply in_or_app. left.
      rewrite (IH1a Hf Hz). left; reflexivity.
    + right; right. apply in_or_app.
      apply in_app_or in H. destruct H; [left | right]; eauto.
  - intros p f cs crash s n n1 ev1 _ _ _ IH1 Hs id' g Hin Hf Hz.
    destruct (IH1 Hs) as [IH1a IH1b].
    destruct Hin as [H | [H | H]]; try discriminate.
    + injection H as <- <-. right; right.
      rewrite (IH1a Hf Hz). left; reflexivity.
    + right; right. eauto.
Qed.

End Typing.

(** ** Zip below the top level (C10) *)

Lemma walk_events K fuel e :
  exists ev,
    snd (walk K fuel e) =
      Alloc 0 :: Call 0 {| r := e.(e_r); filename := e.(e_filename); err := None |} :: ev
    /\ frame K e.(e_sep) 0 {| r := e.(e_r); filename := e.(e_filename); err := None |}
             (fst (fst (walk K fuel e))) 1 (snd (fst (walk K fuel e))) ev.
Proof.
  unfold walk, extract_new.
  pose proof (extract_shape K (e_sep e) fuel 0
                {| r := e_r e; filename := e_filename e; err := None |} 1) as H.
  destruct (extract K (e_sep e) fuel 0 _ 1) as [[s m] ev].
  exists ev. split; [reflexivity | exact H].
Qed.

(** C10. The zip branch asks whether the filestream's reader is an *os.File.
    In the log of any walk, every filestream passed to a recursive call (every
    call but the first, number 0) has a decoder or entry stream as its reader,
    never a file.  So a call on one that sniffs as zip does nothing but send
    it with NestError, and that send is in the log as soon as the walk did not
    run out of fuel.  An entry of a zip file is passed to extract only in a
    session whose input is an *os.File sniffed as zip. *)
Theorem nested_zip_is_never_enumerated K fuel e s m ev :
  walk K fuel e = (s, m, ev) ->
  forall id f,
    In (Call id f) ev -> id <> 0 ->
    is_stream f.(r) = true
    /\ is_os_File f.(r) = false
    /\ (sniffed K f = Some Zip ->
        (forall fuel' n,
            extract K e.(e_sep) (S fuel') id f n = (Done, n, [Send id (nest_error f)]))
        /\ (s <> OutOfFuel -> In (Send id (nest_error f)) ev))
    /\ (is_zip_entry f.(r) = true ->
        is_os_File e.(e_r) = true
        /\ sniffed K {| r := e.(e_r); filename := e.(e_filename); err := None |} = Some Zip).
Proof.
  intros HW id f Hin Hid.
  destruct (walk_events K fuel e) as (ev' & Hev & Hframe).
  rewrite HW in Hev, Hframe. simpl in Hev, Hframe. subst ev.
  destruct Hin as [H | [H | Hin]]; [discriminate | congruence |].
  destruct (proj1 (shape_typed K (e_sep e)) _ _ _ _ _ _ Hframe) as [Hcalls _].
  destruct (Hcalls _ _ Hin) as [Hstream _].
  assert (Hfile : is_os_File (r f) = false) by (destruct (r f); try discriminate; reflexivity).
  split; [exact Hstream |]. split; [exact Hfile |]. split.
  - intros Hz. split.
    + intros fuel' n. rewrite extract_plan.
      rewrite (plan_of_nested_zip K (e_sep e) f Hfile Hz). reflexivity.
    + intros Hs. right; right.
      destruct (proj1 (shape_nested_zip K (e_sep e)) _ _ _ _ _ _ Hframe Hs) as [_ Hsent].
      apply (Hsent _ _ Hin Hfile Hz).
  - intros Hentry.
    destruct (enumerates_zip K {| r := e_r e; filename := e_filename e; err := None |})
      eqn:Ez.
    + unfold enumerates_zip in Ez. simpl r in Ez.
      apply andb_prop in Ez. destruct Ez as [E1 E2]. split; [exact E1 |].
      destruct (sniffed K _) as [[] |]; try discriminate. reflexivity.
    + pose proof (proj1 (shape_no_zip_entry K (e_sep e)) _ _ _ _ _ _ Hframe Ez _ _ Hin).
      congruence.
Qed.

(** ** Constructions, calls and sends (C8) *)

Ltac count_events :=
  unfold counts_ok, count in *; simpl;
  repeat match goal with
         | |- context [Nat.eqb ?a ?b] => destruct (Nat.eqb_spec a b); simpl
         end;
  rewrite ?filter_app, ?length_app;
  try lia.

Lemma shape_counts K sep :
  (forall id f s n m ev,
      frame K sep id f s n m ev ->
      n <= m
      /\ (forall j, j <> id -> counts_ok n m ev j)
      /\ (id < n ->
          count (is_alloc_of id) ev = 0 /\ count (is_call_of id) ev = 0
          /\ count (is_send_of id) ev <= 1))
  /\ (forall p cs crash s n m ev,
         children K sep p cs crash s n m ev ->
         n <= m /\ forall j, counts_ok n m ev j).
Proof.
  apply frame_children_ind.
  - intros id f n. repeat split; intros; count_events.
  - intros id f n _. repeat split; intros; count_events.
  - intros id f f' n _. repeat split; intros; count_events.
  - intros id f cs crash s n m ev _ _ [Hle IH].
    split; [exact Hle |]. split; [intros j _; apply IH |].
    intros Hid. destruct (IH id) as [_ Hout].
    destruct Hout as (Ha & Hc & Hs); [lia |].
    rewrite Ha, Hc, Hs. lia.
  - intros p crash n. split; [lia |]. intros j. count_events.
  - intros p f cs crash s n m ev _ _ [Hle IH].
    split; [lia |]. intros j. specialize (IH j). count_events.
  - intros p f cs crash s n n1 m ev1 ev2 _ _ (Hle1 & IH1 & IH1') _ [Hle2 IH2].
    split; [lia |]. intros j. specialize (IH2 j).
    destruct (Nat.eq_dec j n) as [-> | Hj].
    + specialize (IH1' (Nat.lt_succ_diag_r n)). count_events.
    + specialize (IH1 j Hj). count_events.
  - intros p f cs crash s n n1 ev1 _ _ _ (Hle1 & IH1 & IH1').
    split; [lia |]. intros j.
    destruct (Nat.eq_dec j n) as [-> | Hj].
    + specialize (IH1' (Nat.lt_succ_diag_r n)). count_events.
    + specialize (IH1 j Hj). count_events.
Qed.

Lemma sum_indicator i : forall m a,
  list_sum (map (fun j => if Nat.eqb i j then 1 else 0) (seq a m)) =
    if Nat.leb a i && Nat.ltb i (a + m) then 1 else 0.
Proof.
  induction m as [| m IH]; intros a.
  - simpl. destruct (Nat.leb_spec a i), (Nat.ltb_spec i (a + 0)); simpl; lia.
  - simpl. rewrite IH.
    destruct (Nat.eqb_spec i a), (Nat.leb_spec (S a) i), (Nat.ltb_spec i (S a + m)),
      (Nat.leb_spec a i), (Nat.ltb_spec i (a + S m)); simpl; lia.
Qed.

Lemma list_sum_map_add (f g : nat -> nat) l :
  list_sum (map (fun j => f j + g j) l) = list_sum (map f l) + list_sum (map g l).
Proof. induction l as [| a l IH]; simpl; lia. Qed.

Lemma list_sum_map_ext (f g : nat -> nat) l :
  (forall j, f j = g j) -> list_sum (map f l) = list_sum (map g l).
Proof. intros H. induction l as [| a l IH]; simpl; rewrite ?H, ?IH; reflexivity. Qed.

(** The events of one kind are as many as the per-number counts add up to. *)
Lemma count_by_number (p : nat -> event -> bool) (q : event -> bool) :
  (forall e, (q e = true /\ exists i, forall j, p j e = Nat.eqb i j)
             \/ (q e = false /\ forall j, p j e = false)) ->
  forall ev m,
    (forall j, m <= j -> count (p j) ev = 0) ->
    count q ev = list_sum (map (fun j => count (p j) ev) (seq 0 m)).
Proof.
  intros Hpq ev m. induction ev as [| e ev IH]; intros Hout.
  - unfold count. simpl. induction (seq 0 m); simpl; auto.
  - unfold count in *. simpl.
    destruct (Hpq e) as [[Hq (i & Hi)] | [Hq Hp]]; rewrite Hq.
    + assert (Him : i < m).
      { destruct (Nat.lt_ge_cases i m) as [| Hge]; [assumption |].
        specialize (Hout i Hge). simpl in Hout.
        rewrite Hi, Nat.eqb_refl in Hout. discriminate. }
      assert (Hout' : forall j, m <= j -> Datatypes.length (filter (p j) ev) = 0).
      { intros j Hj. specialize (Hout j Hj). simpl in Hout.
        destruct (p j e); simpl in Hout; [discriminate | assumption]. }
      rewrite (list_sum_map_ext
                 (fun j => Datatypes.length (if p j e then e :: filter (p j) ev
                                             else filter (p j) ev))
                 (fun j => (if Nat.eqb i j then 1 else 0)
                           + Datatypes.length (filter (p j) ev))).
      * rewrite list_sum_map_add, sum_indicator, <- (IH Hout').
        destruct (Nat.leb_spec 0 i), (Nat.ltb_spec i (0 + m)); simpl; lia.
      * intros j. rewrite Hi. destruct (Nat.eqb i j); reflexivity.
    + rewrite (list_sum_map_ext
                 (fun j => Datatypes.length (if p j e then e :: filter (p j) ev
                                             else filter (p j) ev))
                 (fun j => Datatypes.length (filter (p j) ev))).
      * apply IH. intros j Hj. specialize (Hout j Hj). simpl in Hout.
        rewrite Hp in Hout. exact Hout.
      * intros j. rewrite Hp. reflexivity.
Qed.

Lemma sum_and_zeros (c : nat -> nat) l :
  (forall j, In j l -> c j <= 1) ->
  list_sum (map c l) + List.length (filter (fun j => Nat.eqb (c j) 0) l) = List.length l.
Proof.
  induction l as [| a l IH]; intros H; [reflexivity |].
  simpl. assert (Ha : c a <= 1) by (apply H; left; reflexivity).
  assert (IH' := IH (fun j Hj => H j (or_intror Hj))).
  destruct (Nat.eqb_spec (c a) 0); simpl; lia.
Qed.

Lemma sum_of_ones (c : nat -> nat) l :
  (forall j, In j l -> c j = 1) -> list_sum (map c l) = List.length l.
Proof.
  induction l as [| a l IH]; intros H; [reflexivity |].
  simpl. rewrite (H a (or_introl eq_refl)), IH; [reflexivity |].
  intros j Hj. apply H. right. exact Hj.
Qed.

Lemma walk_counts K fuel e s m ev :
  walk K fuel e = (s, m, ev) ->
  1 <= m
  /\ (forall j, j < m ->
        count (is_alloc_of j) ev = 1
        /\ count (is_call_of j) ev <= 1
        /\ count (is_send_of j) ev <= 1
        /\ (count (is_call_of j) ev = 0 -> count (is_send_of j) ev = 1))
  /\ (forall j, m <= j ->
        count (is_alloc_of j) ev = 0
        /\ count (is_call_of j) ev = 0
        /\ count (is_send_of j) ev = 0).
Proof.
  intros HW.
  destruct (walk_events K fuel e) as (ev' & Hev & Hframe).
  rewrite HW in Hev, Hframe. simpl in Hev, Hframe. subst ev.
  destruct (proj1 (shape_counts K (e_sep e)) _ _ _ _ _ _ Hframe) as (Hle & Hj & H0).
  specialize (H0 (Nat.lt_0_succ 0)).
  split; [lia |]. split; intros j Hjm.
  - destruct (Nat.eq_dec j 0) as [-> | Hne].
    + count_events.
    + specialize (Hj j Hne). destruct j as [| j]; [congruence |]. count_events.
  - assert (Hne : j <> 0) by lia. specialize (Hj j Hne).
    destruct j as [| j]; [congruence |]. count_events.
Qed.

Lemma plan_of_sends_itself K sep f f' :
  plan_of K sep f = pass f' <-> sends_itself K f f'.
Proof.
  split.
  - unfold plan_of.
    assert (Hs : forall buf, Peek 512 (buffered (r f)) = Some buf ->
                             sniffed K f = Some (mime_Detect K buf)).
    { intros buf E. unfold sniffed. rewrite E. reflexivity. }
    destruct (Peek 512 (buffered (r f))) as [buf |]; [| discriminate].
    specialize (Hs buf eq_refl).
    destruct (mime_Detect K buf) eqn:Em.
    + destruct (gzip_NewReader K _) as [[e k] | [name data]] eqn:E; [| discriminate].
      intros [= <-]. apply (sends_failure Hs), gzip_fails, E.
    + destruct (stripped_name sep (filename f) ".bz2"); discriminate.
    + pose proof (@sends_nest_error K f Hs) as Hn. unfold nest_error in Hn.
      destruct (r f) as [| whole off [e |] | | | pipe |] eqn:Er.
      * intros [= <-]. apply Hn. reflexivity.
      * intros [= <-].
        pose proof (sends_failure Hs (zip_stat_fails K f Er)) as H.
        rewrite Er in H. exact H.
      * destruct (zip_NewReader K whole) as [e | files] eqn:Ez; [| discriminate].
        intros [= <-].
        pose proof (sends_failure Hs (zip_fails K f Er Ez)) as H.
        rewrite Er in H. exact H.
      * intros [= <-]. apply Hn. reflexivity.
      * intros [= <-]. apply Hn. reflexivity.
      * destruct (zip_NewReader K []) as [e | files] eqn:Ez; [| discriminate].
        intros [= <-].
        pose proof (sends_failure Hs (zip_pipe_fails K f Er Ez)) as H.
        rewrite Er in H. exact H.
      * intros [= <-]. apply Hn. reflexivity.
    + destruct (tar_NewReader K _) as [entries term].
      destruct (is_EOF term); discriminate.
    + destruct (rardecode_NewReader K _) as [[e k] | [entries term]] eqn:E;
        [| discriminate].
      intros [= <-]. apply (sends_failure Hs), rar_fails, E.
    + destruct (xz_NewReader K _) as [[e k] | data] eqn:E.
      * intros [= <-]. apply (sends_failure Hs), xz_fails, E.
      * destruct (stripped_name sep (filename f) ".xz"); discriminate.
    + destruct (stripped_name sep (filename f) ".lz4"); discriminate.
    + intros [= <-]. apply sends_leaf, Hs.
  - intros [Hs | Hs Hf | m e k Hs Hc]; unfold sniffed in Hs; unfold plan_of;
      (destruct (Peek 512 (buffered (r f))) as [buf |]; [| discriminate]);
      injection Hs as Hs; rewrite Hs.
    + reflexivity.
    + unfold nest_error. destruct (r f); try discriminate Hf; reflexivity.
    + destruct Hc as [e k E | e k E | e k E | whole off e E | whole off e E Ez
                     | data e E Ez];
        rewrite E; try rewrite Ez; reflexivity.
Qed.

Lemma In_call_count j g ev : In (Call j g) ev -> 1 <= count (is_call_of j) ev.
Proof.
  unfold count. induction ev as [| a ev IH]; [contradiction |].
  intros [-> | H]; simpl.
  - rewrite Nat.eqb_refl. simpl. lia.
  - specialize (IH H). destruct (is_call_of j a); simpl; lia.
Qed.

Lemma In_send_count j g ev : In (Send j g) ev -> 1 <= count (is_send_of j) ev.
Proof.
  unfold count. induction ev as [| a ev IH]; [contradiction |].
  intros [-> | H]; simpl.
  - rewrite Nat.eqb_refl. simpl. lia.
  - specialize (IH H). destruct (is_send_of j a); simpl; lia.
Qed.

Lemma call_in_range lo hi ev j g :
  counts_ok lo hi ev j -> In (Call j g) ev -> lo <= j < hi.
Proof.
  intros [_ Hout] Hin. apply In_call_count in Hin.
  destruct (Nat.lt_ge_cases j lo) as [H1 | H1].
  - destruct Hout as (_ & Hc & _); lia.
  - destruct (Nat.lt_ge_cases j hi) as [H2 | H2]; [lia |].
    destruct Hout as (_ & Hc & _); lia.
Qed.

Lemma count_send_app j ev1 ev2 :
  count (is_send_of j) (ev1 ++ ev2) = count (is_send_of j) ev1 + count (is_send_of j) ev2.
Proof. unfold count. rewrite filter_app, length_app. reflexivity. Qed.

(** A call that is in the log of a frame which did not run out of fuel has
    sent the filestream it was given if its plan says so, and only then. *)
Lemma shape_passes_sent K sep :
  (forall id f s n m ev,
      frame K sep id f s n m ev -> s <> OutOfFuel -> id < n ->
      passes_sent K sep (Call id f :: ev))
  /\ (forall p cs crash s n m ev,
         children K sep p cs crash s n m ev -> s <> OutOfFuel ->
         passes_sent K sep ev).
Proof.
  apply frame_children_ind; unfold passes_sent.
  - intros id f n H. contradiction H; reflexivity.
  - intros id f n E _ _ j g [[= <- <-] | []]. split.
    + intros g' Hg. congruence.
    + reflexivity.
  - intros id f f' n E _ _ j g [[= <- <-] | [H | []]]; [| discriminate]. split.
    + intros g' Hg. right. left. congruence.
    + intros Hno. contradiction (Hno f' E).
  - intros id f cs crash s n m ev E Hch IH Hs Hid j g [[= <- <-] | Hin].
    + split; [intros g' Hg; congruence |]. intros _.
      destruct (proj2 (shape_counts K sep) _ _ _ _ _ _ _ Hch) as [_ Hc].
      destruct (Hc id) as [_ Hout]. destruct Hout as (_ & _ & H0); [lia |].
      exact H0.
    + destruct (IH Hs j g Hin) as [H1 H2]. split.
      * intros g' Hg. right. auto.
      * exact H2.
  - intros p crash n _ j g [].
  - intros p f cs crash s n m ev _ Hch IH Hs j g [H | [H | Hin]]; try discriminate.
    destruct (IH Hs j g Hin) as [H1 H2].
    destruct (proj2 (shape_counts K sep) _ _ _ _ _ _ _ Hch) as [_ Hc].
    pose proof (@call_in_range _ _ _ _ _ (Hc j) Hin) as Hj. split.
    + intros g' Hg. right. right. auto.
    + intros Hno. specialize (H2 Hno). unfold count in *. simpl.
      destruct (Nat.eqb_spec n j); [lia | exact H2].
  - intros p f cs crash s n n1 m ev1 ev2 _ Hfr IH1 Hch IH2 Hs j g Hin.
    destruct (proj1 (shape_counts K sep) _ _ _ _ _ _ Hfr) as (Hle1 & Hc1 & Hc1').
    destruct (proj2 (shape_counts K sep) _ _ _ _ _ _ _ Hch) as [Hle2 Hc2].
    specialize (Hc1' (Nat.lt_succ_diag_r n)).
    assert (IH1' := IH1 ltac:(discriminate) (Nat.lt_succ_diag_r n)).
    assert (Hsplit : In (Call j g) (Call n f :: ev1) \/ In (Call j g) ev2).
    { destruct Hin as [H | [H | H]]; [discriminate | left; left; exact H |].
      apply in_app_or in H. destruct H; [left; right | right]; assumption. }
    change (count (is_send_of j) (Alloc n :: Call n f :: ev1 ++ ev2))
      with (count (is_send_of j) (ev1 ++ ev2)).
    rewrite count_send_app.
    destruct Hsplit as [H | H].
    + destruct (IH1' j g H) as [H1 H2].
      assert (Hj : j < n1).
      { destruct H as [[= <- <-] | H]; [lia |].
        destruct (Nat.eq_dec j n) as [-> | Hne].
        - apply In_call_count in H. lia.
        - pose proof (@call_in_range _ _ _ _ _ (Hc1 j Hne) H). lia. }
      split.
      * intros g' Hg. destruct (H1 g' Hg) as [H' | H']; [discriminate |].
        right. right. apply in_or_app. left. exact H'.
      * intros Hno. specialize (H2 Hno).
        change (count (is_send_of j) (Call n f :: ev1))
          with (count (is_send_of j) ev1) in H2.
        destruct (Hc2 j) as [_ Hout]. destruct Hout as (_ & _ & H0); lia.
    + destruct (IH2 Hs j g H) as [H1 H2].
      pose proof (@call_in_range _ _ _ _ _ (Hc2 j) H) as Hj. split.
      * intros g' Hg. right. right. apply in_or_app. right. auto.
      * intros Hno. specialize (H2 Hno).
        assert (Hne : j <> n) by lia.
        destruct (Hc1 j Hne) as [_ Hout]. destruct Hout as (_ & _ & H0); lia.
  - intros p f cs crash s n n1 ev1 _ Hne Hfr IH1 Hs j g Hin.
    assert (IH1' := IH1 Hs (Nat.lt_succ_diag_r n)).
    destruct Hin as [H | Hin]; [discriminate |].
    destruct (IH1' j g Hin) as [H1 H2]. split.
    + intros g' Hg. right. apply (H1 g' Hg).
    + intros Hno. apply (H2 Hno).
Qed.

(** C8 as the specification states it fails on a gzip stream over plain
    text: the filestream built for the decompressed stream (number 1) is
    passed to the recursive call, and that call, finding a leaf, sends it.
    Two filestreams are constructed; there are two calls and one send. *)
Lemma recursed_leaf_is_also_sent :
  exists ev,
    walk Toy.codecs 2
         (New (stream foreign_reader (Toy.mk_gzip "a.txt" (Toy.B "hello"))) "a.txt.gz")
      = (Done, 2, ev)
    /\ count (is_alloc_of 1) ev = 1
    /\ count (is_call_of 1) ev = 1
    /\ count (is_send_of 1) ev = 1
    /\ ~ resolved_once ev 1
    /\ count is_alloc ev = 2
    /\ count is_call ev + count is_send ev = 3.
Proof.
  eexists. split; [reflexivity |].
  repeat split; try reflexivity.
  unfold resolved_once. vm_compute. intros [[_ H] | [H _]]; discriminate.
Qed.

(** C8 (amended). In the log of a walk every filestream constructed is
    constructed once and handed on: it is passed to exactly one call of
    extract, which sends it at most once, or it is never passed to extract
    and is sent exactly once.  No other number occurs in the log, and the
    number of filestreams constructed equals the number of calls of extract
    plus the number of filestreams sent without a call.  In a walk that
    stays within its fuel, a filestream passed to extract is sent by that
    call, once and as the call leaves it, when it is of unrecognized format,
    when it sniffs as zip and its reader is no *os.File, or when the
    constructor of its decoder fails; in every other case it is never
    sent. *)
Theorem every_filestream_is_handed_on K fuel e s m ev :
  walk K fuel e = (s, m, ev) ->
  count is_alloc ev = m
  /\ (forall j, j < m -> count (is_alloc_of j) ev = 1 /\ handed_on ev j)
  /\ (forall j, m <= j ->
        count (is_alloc_of j) ev = 0 /\ count (is_call_of j) ev = 0
        /\ count (is_send_of j) ev = 0)
  /\ count is_call ev + List.length (uncalled ev m) = m
  /\ (s <> OutOfFuel -> calls_resolved K ev).
Proof.
  intros HW. destruct (walk_counts K fuel e HW) as (Hm & Hin & Hout).
  assert (Halloc : count is_alloc ev = m).
  { rewrite (@count_by_number is_alloc_of is_alloc) with (m := m).
    - rewrite sum_of_ones, length_seq; [reflexivity |].
      intros j Hj. apply in_seq in Hj. apply Hin. lia.
    - intros [i | i f | i f]; [left | right | right]; simpl; eauto.
    - intros j Hj. apply Hout, Hj. }
  assert (Hcall : count is_call ev =
                  list_sum (map (fun j => count (is_call_of j) ev) (seq 0 m))).
  { apply (@count_by_number is_call_of is_call).
    - intros [i | i f | i f]; [right | left | right]; simpl; eauto.
    - intros j Hj. apply Hout, Hj. }
  split; [exact Halloc |]. split; [| split; [exact Hout | split]].
  - intros j Hj. destruct (Hin j Hj) as (Ha & Hc & Hs & Hcs).
    split; [exact Ha |]. unfold handed_on.
    destruct (count (is_call_of j) ev) as [| [| c]]; [right | left |]; lia.
  - rewrite Hcall. unfold uncalled.
    rewrite sum_and_zeros, length_seq; [reflexivity |].
    intros j Hj. apply in_seq in Hj. apply Hin. lia.
  - intros Hs j f Hcall_in.
    destruct (walk_events K fuel e) as (ev' & Hev & Hframe).
    rewrite HW in Hev, Hframe. simpl in Hev, Hframe.
    pose proof (proj1 (shape_passes_sent K (e_sep e)) _ _ _ _ _ _ Hframe Hs
                  (Nat.lt_0_succ 0)) as Hpass.
    assert (Hcall' : In (Call j f)
                        (Call 0 {| r := e_r e; filename := e_filename e; err := None |}
                           :: ev')).
    { rewrite Hev in Hcall_in. destruct Hcall_in as [H | H]; [discriminate | exact H]. }
    destruct (Hpass j f Hcall') as [H1 H2].
    assert (Hle : count (is_send_of j) ev <= 1).
    { destruct (Nat.lt_ge_cases j m) as [Hj | Hj].
      - apply (Hin j Hj).
      - destruct (Hout j Hj) as (_ & _ & H0). lia. }
    split.
    + intros f' Hf'. apply (plan_of_sends_itself K (e_sep e)) in Hf'.
      destruct (H1 f' Hf') as [H | H]; [discriminate |].
      assert (Hsend : In (Send j f') ev) by (rewrite Hev; right; right; exact H).
      split; [exact Hsend |]. apply In_send_count in Hsend. lia.
    + intros Hno. rewrite Hev.
      change (count (is_send_of j) ev' = 0). apply H2.
      intros g' Hg'. apply (plan_of_sends_itself K (e_sep e)) in Hg'.
      apply (Hno g' Hg').
Qed.

(** ** The order of the leaves (C9) *)

Lemma sent_app ev1 ev2 : sent (ev1 ++ ev2) = sent ev1 ++ sent ev2.
Proof.
  induction ev1 as [| [i | i f | i f] ev1 IH]; simpl; rewrite ?IH; reflexivity.
Qed.

Lemma leaves_Node ts : leaves (Node ts) = leaves_of ts.
Proof.
  simpl. induction ts as [| c ts IH]; [reflexivity |].
  simpl. rewrite IH. reflexivity.
Qed.

Lemma nest_plan K sep fuel f :
  nest K sep (S fuel) f =
    match plan_of K sep f with
    | stop _ => Cut
    | pass f' => Leaf f'
    | open cs crash =>
        Node (map (child_tree (nest K sep fuel)) cs ++ if crash then [Cut] else [])
    end.
Proof.
  simpl nest. unfold plan_of.
  destruct (Peek 512 (buffered (r f))) as [buf |]; [| reflexivity].
  destruct (mime_Detect K buf).
  - destruct (gzip_NewReader K _) as [[e k] | [name data]]; reflexivity.
  - destruct (stripped_name sep (filename f) ".bz2"); reflexivity.
  - destruct (r f) as [| whole off [e |] | | | pipe |]; try reflexivity;
      (destruct (zip_NewReader K _) as [e | files]; [reflexivity |]);
      rewrite app_nil_r, map_map; f_equal;
      apply map_ext; intros file; unfold zip_child;
      destruct (zip_Open file); reflexivity.
  - destruct (tar_NewReader K _) as [entries term].
    destruct (is_EOF term).
    + rewrite app_nil_r, map_app, map_map. reflexivity.
    + rewrite map_map. reflexivity.
  - destruct (rardecode_NewReader K _) as [[e k] | [entries term]]; [reflexivity |].
    rewrite app_nil_r, map_app, map_map. reflexivity.
  - destruct (xz_NewReader K _) as [[e k] | data]; [reflexivity |].
    destruct (stripped_name sep (filename f) ".xz"); reflexivity.
  - destruct (stripped_name sep (filename f) ".lz4"); reflexivity.
  - reflexivity.
Qed.

Section Order.

Variable rec : nat -> filestream -> cmd.
Variable nestrec : filestream -> tree.

Hypothesis rec_leaves : forall id f n,
    sent (snd (rec id f n)) = leaves (nestrec f)
    /\ (fst (fst (rec id f n)) = Done <-> complete (nestrec f) = true).

Lemma run_children_leaves cs (crash : bool) : forall n,
  let ts := map (child_tree nestrec) cs ++ (if crash then [Cut] else []) in
  sent (snd (run_children rec cs crash n)) = leaves_of ts
  /\ (fst (fst (run_children rec cs crash n)) = Done <-> forallb complete ts = true).
Proof.
  induction cs as [| c cs IH]; intros n.
  - destruct crash; simpl; split; try reflexivity;
      split; intros H; first [reflexivity | discriminate H].
  - destruct c as [f | f]; simpl; unfold andThen.
    + unfold send_new. specialize (IH (S n)).
      destruct (run_children rec cs crash (S n)) as [[s1 m1] ev1].
      simpl in *. destruct IH as [IH1 IH2]. rewrite IH1. split; [reflexivity | exact IH2].
    + unfold extract_new.
      destruct (rec_leaves n f (S n)) as [R1 R2].
      destruct (rec n f (S n)) as [[s1 n1] ev1]. simpl in R1, R2.
      destruct s1.
      * specialize (IH n1).
        destruct (run_children rec cs crash n1) as [[s2 m2] ev2].
        simpl in *. rewrite sent_app, R1, (proj1 R2 eq_refl).
        destruct IH as [IH1 IH2]. rewrite IH1. split; [reflexivity | exact IH2].
      * simpl. destruct (complete (nestrec f)) eqn:Ec.
        -- discriminate (proj2 R2 eq_refl).
        -- rewrite app_nil_r. split; [exact R1 | split; discriminate].
      * simpl. destruct (complete (nestrec f)) eqn:Ec.
        -- discriminate (proj2 R2 eq_refl).
        -- rewrite app_nil_r. split; [exact R1 | split; discriminate].
Qed.

End Order.

Lemma extract_leaves K sep fuel : forall id f n,
  sent (snd (extract K sep fuel id f n)) = leaves (nest K sep fuel f)
  /\ (fst (fst (extract K sep fuel id f n)) = Done
      <-> complete (nest K sep fuel f) = true).
Proof.
  induction fuel as [| fuel IH]; intros id f n.
  - simpl. split; [reflexivity | split; discriminate].
  - rewrite extract_plan, nest_plan.
    destruct (plan_of K sep f) as [s | f' | cs crash] eqn:E; simpl run_plan.
    + rewrite (@plan_of_stop K sep f s E). simpl.
      split; [reflexivity | split; discriminate].
    + simpl. split; [reflexivity | split; reflexivity].
    + rewrite leaves_Node.
      apply (run_children_leaves (extract K sep fuel) (nest K sep fuel) IH cs crash n).
Qed.

Lemma run_children_delivered (rec : nat -> filestream -> cmd) cs crash :
  forall n s m ev,
    run_children rec cs crash n = (s, m, ev) ->
    exists ls, sent ev = List.concat ls
               /\ Forall2 (delivered rec) (firstn (List.length ls) cs) ls
               /\ (s = Done -> List.length ls = List.length cs).
Proof.
  induction cs as [| c cs IH]; intros n s m ev H.
  - simpl in H. exists [].
    destruct crash; injection H as <- <- <-;
      (split; [reflexivity | split; [constructor | reflexivity]]).
  - destruct c as [g | g]; simpl in H; unfold andThen in H.
    + unfold send_new in H.
      destruct (run_children rec cs crash (S n)) as [[s1 m1] ev1] eqn:E.
      injection H as <- <- <-.
      destruct (IH _ _ _ _ E) as (ls & Hev & Hls & Hlen).
      exists ([g] :: ls). simpl. rewrite Hev. split; [reflexivity |]. split.
      * constructor; [reflexivity | exact Hls].
      * intros Hs. rewrite (Hlen Hs). reflexivity.
    + unfold extract_new in H.
      destruct (rec n g (S n)) as [[s1 n1] ev1] eqn:E1.
      assert (Hd : delivered rec (nested g) (sent ev1)).
      { exists n, (S n). rewrite E1. reflexivity. }
      destruct s1.
      * destruct (run_children rec cs crash n1) as [[s2 m2] ev2] eqn:E2.
        injection H as <- <- <-.
        destruct (IH _ _ _ _ E2) as (ls & Hev & Hls & Hlen).
        exists (sent ev1 :: ls). simpl. rewrite sent_app, Hev.
        split; [reflexivity |]. split.
        -- constructor; [exact Hd | exact Hls].
        -- intros Hs. rewrite (Hlen Hs). reflexivity.
      * injection H as <- <- <-. exists [sent ev1]. simpl. rewrite app_nil_r.
        split; [reflexivity |]. split; [| discriminate].
        constructor; [exact Hd | constructor].
      * injection H as <- <- <-. exists [sent ev1]. simpl. rewrite app_nil_r.
        split; [reflexivity |]. split; [| discriminate].
        constructor; [exact Hd | constructor].
Qed.

Lemma container_plan K sep f cs :
  container K sep f cs -> exists crash, plan_of K sep f = open cs crash.
Proof.
  intros [entries term Hs Ht | entries term Hs Hr | whole off files Hs Hf Hz
         | data files Hs Hf Hz];
    unfold sniffed in Hs; unfold plan_of;
    (destruct (Peek 512 (buffered (r f))) as [buf |]; [| discriminate]);
    injection Hs as ->.
  - rewrite Ht. destruct (is_EOF term).
    + exists false. reflexivity.
    + exists true. rewrite app_nil_r. reflexivity.
  - exists false. rewrite Hr. reflexivity.
  - exists false. rewrite Hf, Hz. reflexivity.
  - exists false. rewrite Hf, Hz. reflexivity.
Qed.

(** C9. The filestreams a walk sends are the leaves of the nesting structure
    of its input, from left to right, each container's content before what
    follows the container.  This holds for every input and however the walk
    ends: where the producer panics (or the fuel ends) the structure has a
    cut, the walk has sent exactly the leaves before the first cut, in that
    order, and it returns exactly when the structure has no cut.  Within one
    tar, rar or zip container the channel receives, entry after entry in the
    order of the archive, what the walk of that entry sends (for tar and rar
    the end marker last); a walk that stops early has served an initial part
    of the entries, in that order. *)
Theorem leaves_are_sent_in_preorder K fuel e :
  let root := {| r := e.(e_r); filename := e.(e_filename); err := None |} in
  let t := nest K e.(e_sep) fuel root in
  sent (snd (walk K fuel e)) = leaves t
  /\ (fst (fst (walk K fuel e)) = Done <-> complete t = true)
  /\ (forall sep fuel' id f cs n s m ev,
         container K sep f cs ->
         extract K sep (S fuel') id f n = (s, m, ev) ->
         exists ls, sent ev = List.concat ls
                    /\ Forall2 (delivered (extract K sep fuel'))
                               (firstn (List.length ls) cs) ls
                    /\ (s = Done -> List.length ls = List.length cs)).
Proof.
  intros root t. 
  pose proof (extract_leaves K (e_sep e) fuel 0 root 1) as [H1 H2].
  fold t in H1, H2.
  unfold walk, extract_new. fold root.
  destruct (extract K (e_sep e) fuel 0 root 1) as [[s1 m1] ev1].
  split; [exact H1 |]. split; [exact H2 |].
  intros sep fuel' id f cs n s m ev Hc H.
  destruct (container_plan Hc) as [crash Hp].
  rewrite extract_plan, Hp in H.
  apply (run_children_delivered _ _ _ _ H).
Qed.

(** ** Names of decompressed streams (C2) *)

Lemma string_app_assoc (s1 s2 s3 : string) :
  ((s1 ++ s2) ++ s3 = s1 ++ s2 ++ s3)%string.
Proof. induction s1 as [| c s1 IH]; simpl; [| rewrite IH]; reflexivity. Qed.

Lemma string_app_nil_r (s : string) : (s ++ "")%string = s.
Proof. induction s as [| c s IH]; simpl; [| rewrite IH]; reflexivity. Qed.

Lemma list_ascii_app (s1 s2 : string) :
  list_ascii_of_string (s1 ++ s2) = list_ascii_of_string s1 ++ list_ascii_of_string s2.
Proof. induction s1 as [| c s1 IH]; simpl; [| rewrite IH]; reflexivity. Qed.

Lemma string_of_list_app (l1 l2 : list ascii) :
  string_of_list_ascii (l1 ++ l2) =
    (string_of_list_ascii l1 ++ string_of_list_ascii l2)%string.
Proof. induction l1 as [| c l1 IH]; simpl; [| rewrite IH]; reflexivity. Qed.

Lemma length_string_app (s1 s2 : string) :
  String.length (s1 ++ s2) = String.length s1 + String.length s2.
Proof. induction s1 as [| c s1 IH]; simpl; [| rewrite IH]; reflexivity. Qed.

Lemma slice_to_prefix (s1 s2 : string) :
  slice_to (s1 ++ s2) (String.length s1) = s1.
Proof.
  unfold slice_to. induction s1 as [| c s1 IH]; simpl.
  - destruct s2; reflexivity.
  - rewrite IH. reflexivity.
Qed.

Lemma string_app_inv_tail (p q s : string) : (p ++ s = q ++ s)%string -> p = q.
Proof.
  intros H. apply (f_equal list_ascii_of_string) in H.
  rewrite !list_ascii_app in H. apply app_inv_tail in H.
  rewrite <- (string_of_list_ascii_of_string p), <- (string_of_list_ascii_of_string q).
  rewrite H. reflexivity.
Qed.

Lemma ext_scan_found l : forall rest acc,
  plain l = true ->
  filepath.ext_scan (l ++ "."%char :: rest) acc = "."%char :: rev l ++ acc.
Proof.
  induction l as [| c l IH]; intros rest acc Hl; [reflexivity |].
  simpl in Hl. apply andb_prop in Hl. destruct Hl as [Hc Hl].
  apply andb_prop in Hc. destruct Hc as [Hs Hd].
  simpl. destruct (filepath.IsPathSeparator c); [discriminate |].
  destruct (Ascii.eqb c "."); [discriminate |].
  rewrite IH by assumption. simpl. rewrite <- app_assoc. reflexivity.
Qed.

Lemma ext_scan_inv rd : forall acc,
  filepath.ext_scan rd acc = []
  \/ exists l rest,
      rd = l ++ "."%char :: rest /\ plain l = true
      /\ filepath.ext_scan rd acc = "."%char :: rev l ++ acc.
Proof.
  induction rd as [| c rd IH]; intros acc; [left; reflexivity |].
  simpl. destruct (filepath.IsPathSeparator c) eqn:Es; [left; reflexivity |].
  destruct (Ascii.eqb_spec c "."%char) as [-> | Hd].
  - right. exists [], rd. auto.
  - destruct (IH (c :: acc)) as [H | (l & rest & -> & Hl & H)]; [left; exact H |].
    right. exists (c :: l), rest. split; [reflexivity |]. split.
    + simpl. rewrite Es, Hl.
      destruct (Ascii.eqb_spec c "."%char); [contradiction | reflexivity].
    + rewrite H. simpl. rewrite <- app_assoc. reflexivity.
Qed.

(** filepath.Ext gives the extension [.x], for [x] without a dot or a slash,
    exactly on the names that end with [.x]. *)
Lemma Ext_is_suffix (x base : string) :
  plain (list_ascii_of_string x) = true ->
  filepath.Ext base = String "."%char x <-> exists p, base = (p ++ String "."%char x)%string.
Proof.
  intros Hx. unfold filepath.Ext. split.
  - intros H.
    destruct (ext_scan_inv (rev (list_ascii_of_string base)) [])
      as [E | (l & rest & Hrev & Hl & E)]; rewrite E in H; [discriminate |].
    simpl in H. injection H as H. rewrite app_nil_r in H.
    exists (string_of_list_ascii (rev rest)).
    rewrite <- (string_of_list_ascii_of_string base).
    rewrite <- (rev_involutive (list_ascii_of_string base)), Hrev.
    rewrite rev_app_distr. simpl. rewrite <- app_assoc. simpl.
    rewrite string_of_list_app. simpl. rewrite H. reflexivity.
  - intros (p & ->).
    rewrite list_ascii_app. simpl. rewrite rev_app_distr. simpl.
    rewrite <- app_assoc. simpl.
    rewrite ext_scan_found.
    + simpl. rewrite rev_involutive, app_nil_r, string_of_list_ascii_of_string.
      reflexivity.
    + unfold plain in *. rewrite forallb_forall in *.
      intros c Hc. apply Hx. apply in_rev. exact Hc.
Qed.

Lemma genSplit_not_nil sep s : forall k cur, strings.genSplit sep s k cur <> [].
Proof.
  induction s as [| c s IH]; intros k cur; cbn [strings.genSplit]; [discriminate |].
  destruct k; [| apply IH].
  destruct (strings.HasPrefix (String c s) sep); [discriminate | apply IH].
Qed.

Lemma HasPrefix_app s sep :
  strings.HasPrefix s sep = true -> exists rest, s = (sep ++ rest)%string.
Proof.
  revert s. induction sep as [| a sep IH]; intros s H.
  - exists s. reflexivity.
  - destruct s as [| b s]; [discriminate |]. simpl in H.
    apply andb_prop in H. destruct H as [Hab H].
    apply Ascii.eqb_eq in Hab. subst b.
    destruct (IH s H) as (rest & ->). exists rest. reflexivity.
Qed.

Lemma genSplit_skip sep p : forall s cur,
  strings.genSplit sep (p ++ s) (String.length p) cur = strings.genSplit sep s 0 cur.
Proof.
  induction p as [| c p IH]; intros s cur; simpl.
  - destruct s; reflexivity.
  - apply IH.
Qed.

Lemma concat_cons sep x l :
  l <> [] -> String.concat sep (x :: l) = (x ++ sep ++ String.concat sep l)%string.
Proof. destruct l; [congruence | reflexivity]. Qed.

Lemma genSplit_Join a sep' : forall n s cur,
  String.length s <= n ->
  String.concat (String a sep') (strings.genSplit (String a sep') s 0 cur) = (cur ++ s)%string.
Proof.
  set (sep := String a sep').
  induction n as [| n IH]; intros s cur Hn.
  - destruct s; [| simpl in Hn; lia]. simpl. rewrite string_app_nil_r. reflexivity.
  - destruct s as [| c s].
    + simpl. rewrite string_app_nil_r. reflexivity.
    + cbn [strings.genSplit].
      destruct (strings.HasPrefix (String c s) sep) eqn:E.
      * apply HasPrefix_app in E. destruct E as (rest & E).
        unfold sep in E. simpl in E. injection E as -> ->.
        rewrite concat_cons by apply genSplit_not_nil.
        simpl String.length.
        replace (S (String.length sep') - 1) with (String.length sep') by lia.
        rewrite genSplit_skip.
        rewrite IH.
        -- simpl. reflexivity.
        -- simpl in Hn. rewrite length_string_app in Hn. lia.
      * rewrite IH by (simpl in Hn; lia).
        rewrite string_app_assoc. reflexivity.
Qed.

(** The segments that strings.Split cuts a name into, joined again with the
    separator, are the name: the last segment is what follows the last
    separator that Split found. *)
Lemma Split_Join s sep :
  sep <> EmptyString -> String.concat sep (strings.Split s sep) = s.
Proof.
  intros Hsep. destruct sep as [| a sep']; [congruence |].
  unfold strings.Split. apply (genSplit_Join a sep' (n := String.length s)). lia.
Qed.

Example Split_colons :
  strings.Split "x.tar.gz:y.bz2::z" ":" = ["x.tar.gz"; "y.bz2"; ""; "z"]%string.
Proof. reflexivity. Qed.

Example Split_without_separator : strings.Split "x.bz2" ":" = ["x.bz2"%string].
Proof. reflexivity. Qed.

Example Ext_last_dot : filepath.Ext "dir.d/a.tar.bz2" = ".bz2"%string.
Proof. reflexivity. Qed.

Example Ext_stops_at_slash : filepath.Ext "dir.bz2/a" = EmptyString.
Proof. reflexivity. Qed.

Example stripped_name_strips :
  stripped_name ":" "x.tar:y.bz2" ".bz2" = Some "x.tar:y.bz2:y"%string.
Proof. reflexivity. Qed.

Example stripped_name_keeps :
  stripped_name ":" "x.bz2:y" ".bz2" = Some "x.bz2:y"%string.
Proof. reflexivity. Qed.

Lemma stripped_name_spec sep fname x :
  sep <> EmptyString ->
  plain (list_ascii_of_string x) = true ->
  let base := last (strings.Split fname sep) EmptyString in
  exists name,
    stripped_name sep fname (String "."%char x) = Some name
    /\ (forall p, base = (p ++ String "."%char x)%string ->
                  name = (fname ++ sep ++ p)%string)
    /\ ((forall p, base <> (p ++ String "."%char x)%string) -> name = fname).
Proof.
  intros Hsep Hx. cbv zeta. unfold stripped_name.
  destruct (strings.Split fname sep) as [| seg segs] eqn:ES.
  { unfold strings.Split in ES. destruct sep; [congruence |].
    exfalso. apply (genSplit_not_nil _ _ _ _ ES). }
  set (base := last (seg :: segs) EmptyString).
  destruct (String.eqb_spec (filepath.Ext base) (String "."%char x)) as [E | E].
  - apply (Ext_is_suffix x base Hx) in E as E'. destruct E' as (p & Hp).
    eexists. split; [reflexivity |]. split.
    + intros q Hq. rewrite E. rewrite Hq at 1 2.
      rewrite length_string_app, Nat.add_sub, slice_to_prefix. reflexivity.
    + intros Hno. exfalso. apply (Hno p Hp).
  - exists fname. split; [reflexivity |]. split; [| reflexivity].
    intros p Hp. exfalso. apply E. apply (Ext_is_suffix x base Hx). exists p. exact Hp.
Qed.

Lemma strips_canon K br m t canon data :
  strips K br m t canon data ->
  exists x, canon = String "."%char x /\ plain (list_ascii_of_string x) = true.
Proof.
  intros [| |]; [exists "bz2"%string | exists "xz"%string | exists "lz4"%string];
    split; reflexivity.
Qed.

(** C2 as the specification states it fails for xz: an input that sniffs
    as xz and whose header the constructor rejects has no recursive child;
    the frame sends the input itself with the error. *)
Lemma xz_failure_has_no_child :
  let f := {| r := stream foreign_reader (Toy.B "X?not an xz stream");
              filename := "x.xz"; err := None |} in
  sniffed Toy.codecs f = Some Xz
  /\ exists f',
      extract Toy.codecs ":" 2 0 f 1 = (Done, 1, [Send 0 f'])
      /\ f'.(err) = Some Toy.ErrHeader
      /\ count is_call (snd (extract Toy.codecs ":" 2 0 f 1)) = 0.
Proof.
  intro f. split; [reflexivity |]. eexists. repeat split; reflexivity.
Qed.

(** C2 (amended). For bzip2, xz and lz4, when the input sniffs as that format
    and its decoder is built (the bzip2 and lz4 constructors cannot fail, the
    xz constructor can), the frame does one thing: it constructs one
    filestream over the decoder and passes it to a recursive call.  If the
    last segment of the parent name, cut at the separator, ends with the
    format's extension (.bz2, .xz, .lz4), the child's name is the parent
    name, the separator, and that segment without the extension; otherwise it
    is the parent name. *)
Theorem compression_only_branch_has_one_child K sep fuel id f n buf m t canon data :
  sep <> EmptyString ->
  Peek 512 (buffered f.(r)) = Some buf ->
  K.(mime_Detect) buf = m ->
  strips K (buffered f.(r)) m t canon data ->
  let base := last (strings.Split f.(filename) sep) EmptyString in
  exists fname,
    extract K sep (S fuel) id f n =
      extract_new (extract K sep fuel)
                  {| r := stream t data; filename := fname; err := None |} n
    /\ (forall p, base = (p ++ canon)%string -> fname = (f.(filename) ++ sep ++ p)%string)
    /\ ((forall p, base <> (p ++ canon)%string) -> fname = f.(filename)).
Proof.
  intros Hsep HP HD HS base.
  destruct (strips_canon HS) as (x & Hc & Hx).
  destruct (@stripped_name_spec sep (filename f) x Hsep Hx) as (fname & Hname & H1 & H2).
  exists fname. rewrite <- Hc in *. split; [| split; assumption].
  simpl extract. rewrite HP, HD.
  destruct HS as [| data HX |]; rewrite ?HX; unfold strip_and_extract;
    rewrite Hname; reflexivity.
Qed.

Lemma compression_only_branch_has_one_child_witness :
  let f := {| r := archive_Reader tar_Reader [Toy.B "Bhello"]; filename := "x.tar:y.bz2";
              err := None |} in
  exists fname,
    extract Toy.codecs ":" 1 3 f 4 =
      extract_new (extract Toy.codecs ":" 0)
                  {| r := stream bzip2_reader (Toy.B "hello"); filename := fname;
                     err := None |} 4
    /\ (forall p, "y.bz2"%string = (p ++ ".bz2")%string ->
                  fname = ("x.tar:y.bz2" ++ ":" ++ p)%string)
    /\ ((forall p, "y.bz2"%string <> (p ++ ".bz2")%string) -> fname = "x.tar:y.bz2"%string).
Proof.
  intro f.
  refine (@compression_only_branch_has_one_child Toy.codecs ":" 0 3 f 4
            (Toy.B "Bhello") Bzip2 bzip2_reader ".bz2" (Toy.B "hello") _ _ _ _).
  - discriminate.
  - reflexivity.
  - reflexivity.
  - exact (strips_bzip2 Toy.codecs (buffered (r f))).
Defined.

(** ** A tar archive in a gzip stream (C1) *)

Lemma Peek_new_stream t data :
  Peek 512 (buffered (stream t data)) = Some (firstn 512 data).
Proof. reflexivity. Qed.

Lemma sniffed_at_entry K t data later fname :
  sniffed K {| r := archive_Reader t (data :: later); filename := fname; err := None |}
    = Some (K.(mime_Detect) (firstn 512 data)).
Proof. reflexivity. Qed.

Lemma extract_leaf K sep fuel id f n :
  sniffed K f = Some other_type ->
  extract K sep (S fuel) id f n =
    (Done, n, [Send id {| r := buffered f.(r); filename := f.(filename); err := f.(err) |}]).
Proof.
  unfold sniffed. destruct (Peek 512 (buffered (r f))) as [buf |] eqn:E; [| discriminate].
  intros [= H]. apply extract_unrecognized with (buf := buf); assumption.
Qed.

Lemma extract_gzip K sep fuel id f n name data :
  sniffed K f = Some Gzip ->
  K.(gzip_NewReader) (content (buffered f.(r))) = inr (name, data) ->
  extract K sep (S fuel) id f n =
    extract_new (extract K sep fuel)
                {| r := stream gzip_Reader data;
                   filename := (f.(filename) ++ sep ++ name)%string; err := None |} n.
Proof.
  unfold sniffed. destruct (Peek 512 (buffered (r f))) as [buf |] eqn:E; [| discriminate].
  intros [= H] HG. simpl extract. rewrite E, H, HG. reflexivity.
Qed.

Lemma extract_tar K sep fuel id f n entries term :
  sniffed K f = Some Tar ->
  K.(tar_NewReader) (content (buffered f.(r))) = (entries, term) ->
  extract K sep (S fuel) id f n =
    tar_loop sep (extract K sep fuel) f.(filename)
             (archive_NewReader tar_Reader (map snd entries)) entries term n.
Proof.
  unfold sniffed. destruct (Peek 512 (buffered (r f))) as [buf |] eqn:E; [| discriminate].
  intros [= H] HT. simpl extract. rewrite E, H, HT. reflexivity.
Qed.

(** C1 as the specification states it fails on both counts.  With no name
    in the gzip header the two leaves are "x.tar.gz::a.txt" and
    "x.tar.gz::c.bin"; with the name "x.tar" in the header they are
    "x.tar.gz:x.tar:a.txt" and "x.tar.gz:x.tar:c.bin". *)
Lemma x_tar_gz_names_keep_the_gzip_segment :
  let names (l : list (Reader * string * bool)) := map (fun x => snd (fst x)) l in
  names (pulls Toy.codecs 3 3 (New (stream foreign_reader Toy.x_tar_gz) "x.tar.gz"))
    = ["x.tar.gz::a.txt"; "x.tar.gz::c.bin"; ""]%string
  /\ names (pulls Toy.codecs 3 3 (New (stream foreign_reader Toy.x_tar_gz) "x.tar.gz"))
     <> ["x.tar.gz:a.txt"; "x.tar.gz:c.bin"; ""]%string
  /\ names (pulls Toy.codecs 3 3
              (New (stream foreign_reader (Toy.mk_gzip "x.tar" Toy.x_tar)) "x.tar.gz"))
     = ["x.tar.gz:x.tar:a.txt"; "x.tar.gz:x.tar:c.bin"; ""]%string
  /\ names (pulls Toy.codecs 3 3
              (New (stream foreign_reader (Toy.mk_gzip "x.tar" Toy.x_tar)) "x.tar.gz"))
     <> ["x.tar:a.txt"; "x.tar:c.bin"; ""]%string.
Proof.
  intro names. repeat split; try reflexivity; vm_compute; discriminate.
Qed.

(** C1 (amended). For an input named "x.tar.gz" that sniffs as gzip, whose
    gzip header carries the name [N] (empty when the header has none) and
    whose decompressed stream is a tar archive of the regular file "a.txt",
    the directory "b/" and the regular file "c.bin", both files of
    unrecognized format: Next returns exactly two leaves, named
    "x.tar.gz:N:a.txt" and "x.tar.gz:N:c.bin" in this order, and then reports
    exhaustion.  The gzip name is added as a segment of its own; it does not
    replace "x.tar.gz". *)
Theorem x_tar_gz_yields_two_leaves K rd fuel N payload a b c dir :
  let root := {| r := rd; filename := "x.tar.gz"; err := None |} in
  sniffed K root = Some Gzip ->
  K.(gzip_NewReader) (content (buffered rd)) = inr (N, payload) ->
  sniffed K {| r := stream gzip_Reader payload; filename := EmptyString; err := None |}
    = Some Tar ->
  K.(tar_NewReader) payload =
    ([ ({| Typeflag := tar_TypeReg; tar_Name := "a.txt" |}, a);
       ({| Typeflag := dir; tar_Name := "b/" |}, b);
       ({| Typeflag := tar_TypeReg; tar_Name := "c.bin" |}, c) ], io_EOF) ->
  dir <> tar_TypeReg ->
  K.(mime_Detect) (firstn 512 a) = other_type ->
  K.(mime_Detect) (firstn 512 c) = other_type ->
  map (fun x => (snd (fst x), snd x)) (pulls K 3 (3 + fuel) (New rd "x.tar.gz")) =
    [ (("x.tar.gz:" ++ N ++ ":a.txt")%string, true);
      (("x.tar.gz:" ++ N ++ ":c.bin")%string, true);
      (EmptyString, false) ].
Proof.
  intros root Hgz HN Htar HT Hdir Ha Hc.
  assert (Hnodir : Byte.eqb dir tar_TypeReg = false).
  { destruct (Byte.eqb dir tar_TypeReg) eqn:E; [| reflexivity].
    apply Byte.byte_dec_bl in E. contradiction. }
  assert (HW : walk K (3 + fuel) (New rd "x.tar.gz") =
               (Done, 5,
                [ Alloc 0; Call 0 root;
                  Alloc 1;
                  Call 1 {| r := stream gzip_Reader payload;
                            filename := ("x.tar.gz:" ++ N)%string; err := None |};
                  Alloc 2;
                  Call 2 {| r := archive_Reader tar_Reader [a; b; c];
                            filename := ("x.tar.gz:" ++ N ++ ":a.txt")%string; err := None |};
                  Send 2 {| r := bufio_NewReader (archive_Reader tar_Reader [a; b; c]);
                            filename := ("x.tar.gz:" ++ N ++ ":a.txt")%string; err := None |};
                  Alloc 3;
                  Call 3 {| r := archive_Reader tar_Reader [c];
                            filename := ("x.tar.gz:" ++ N ++ ":c.bin")%string; err := None |};
                  Send 3 {| r := bufio_NewReader (archive_Reader tar_Reader [c]);
                            filename := ("x.tar.gz:" ++ N ++ ":c.bin")%string; err := None |};
                  Alloc 4;
                  Send 4 (end_marker tar_Reader io_EOF) ])).
  { unfold walk, extract_new. cbn [New e_sep e_r e_filename]. fold root.
    replace (3 + fuel) with (S (S (S fuel))) by reflexivity.
    rewrite (@extract_gzip K ":" (S (S fuel)) 0 root 1 N payload Hgz HN).
    unfold extract_new.
    rewrite (@extract_tar K ":" (S fuel) 1
               {| r := stream gzip_Reader payload;
                  filename := (filename root ++ ":" ++ N)%string; err := None |}
               2 _ io_EOF Htar HT).
    cbn [tar_loop Typeflag tar_Name filename is_EOF map snd archive_NewReader archive_Next].
    rewrite Hnodir.
    replace (Byte.eqb tar_TypeReg tar_TypeReg) with true by reflexivity.
    unfold andThen, extract_new, send_new. cbv delta [root]. cbn [filename].
    rewrite (@extract_leaf K ":" fuel 2
               {| r := archive_Reader tar_Reader [a; b; c];
                  filename := (("x.tar.gz" ++ ":" ++ N) ++ ":" ++ "a.txt")%string;
                  err := None |} 3
               (eq_trans (sniffed_at_entry K tar_Reader a [b; c] _) (f_equal Some Ha))).
    rewrite (@extract_leaf K ":" fuel 3
               {| r := archive_Reader tar_Reader [c];
                  filename := (("x.tar.gz" ++ ":" ++ N) ++ ":" ++ "c.bin")%string;
                  err := None |} 4
               (eq_trans (sniffed_at_entry K tar_Reader c [] _) (f_equal Some Hc))).
    cbn [r filename err buffered app].
    rewrite !string_app_assoc. reflexivity. }
  unfold pulls, Next, once_Do. cbn [New e_once]. rewrite HW. reflexivity.
Qed.

Lemma x_tar_gz_yields_two_leaves_witness :
  map (fun x => (snd (fst x), snd x))
      (pulls Toy.codecs 3 3 (New (stream foreign_reader Toy.x_tar_gz) "x.tar.gz")) =
    [ ("x.tar.gz::a.txt"%string, true);
      ("x.tar.gz::c.bin"%string, true);
      (EmptyString, false) ].
Proof.
  refine (@x_tar_gz_yields_two_leaves Toy.codecs (stream foreign_reader Toy.x_tar_gz) 0
            "" Toy.x_tar (Toy.B "hello") [] (Toy.B "0101") "5"%byte _ _ _ _ _ _ _);
    try reflexivity.
  discriminate.
Defined.

(** ** The end of a tar or rar iteration (C3) *)

Lemma tar_loop_without_EOF sep rec fname term entries :
  is_EOF term = false ->
  forall rd n, fst (fst (tar_loop sep rec fname rd entries term n)) <> Done.
Proof.
  intros Ht. induction entries as [| [hdr data] entries IH]; intros rd n; simpl.
  - rewrite Ht. discriminate.
  - destruct (Byte.eqb (Typeflag hdr) tar_TypeReg); [| apply IH].
    unfold andThen. destruct (extract_new rec _ n) as [[s m] ev].
    destruct s; simpl; try discriminate.
    specialize (IH (archive_Next rd) m).
    destruct (tar_loop sep rec fname (archive_Next rd) entries term m) as [[s' m'] ev'].
    exact IH.
Qed.

Lemma tar_loop_only_skipped sep rec fname term entries :
  is_EOF term = false ->
  Forall (fun e => Byte.eqb (Typeflag (fst e)) tar_TypeReg = false) entries ->
  forall rd n, tar_loop sep rec fname rd entries term n = (Panic, n, []).
Proof.
  intros Ht H. induction H as [| [hdr data] entries Hh _ IH]; intros rd n; simpl.
  - rewrite Ht. reflexivity.
  - simpl in Hh. rewrite Hh. apply IH.
Qed.

(** C3, where the code departs from it.  When the iteration of a tar archive
    ends with an error other than io.EOF, the call of extract does not
    return: it panics on the nil header.  If the archive had no regular entry
    before the error, nothing at all has been sent. *)
Theorem tar_iteration_error_panics K sep fuel id f n entries term :
  sniffed K f = Some Tar ->
  K.(tar_NewReader) (content (buffered f.(r))) = (entries, term) ->
  term <> io_EOF ->
  fst (fst (extract K sep (S fuel) id f n)) <> Done
  /\ (Forall (fun e => Byte.eqb (Typeflag (fst e)) tar_TypeReg = false) entries ->
      extract K sep (S fuel) id f n = (Panic, n, [])).
Proof.
  intros Hs HT Hterm.
  assert (Ht : is_EOF term = false) by (destruct term; try reflexivity; congruence).
  rewrite (extract_tar K sep fuel id f n Hs HT). split.
  - apply tar_loop_without_EOF, Ht.
  - intros H. apply tar_loop_only_skipped; assumption.
Qed.

Lemma tar_iteration_error_panics_witness :
  let f := {| r := stream foreign_reader (Toy.mk_tar [Toy.entry "d" "b/" []] ++ Toy.B "?");
              filename := "x.tar"; err := None |} in
  extract Toy.codecs ":" 1 0 f 1 = (Panic, 1, []).
Proof.
  intro f.
  refine (proj2 (@tar_iteration_error_panics Toy.codecs ":" 0 0 f 1
                   [({| Typeflag := "5"%byte; tar_Name := "b/" |}, [])] Toy.ErrHeader
                   _ _ _) _).
  - reflexivity.
  - reflexivity.
  - discriminate.
  - repeat constructor.
Defined.

(** The rar branch does send the end of its iteration, whatever the error, and
    so does the tar branch at io.EOF: the last thing the frame sends is a
    filestream with that error. *)
Lemma rar_iteration_end_is_sent K sep fuel id f n entries term m ev :
  sniffed K f = Some Rar ->
  K.(rardecode_NewReader) (content (buffered f.(r))) = inr (entries, term) ->
  extract K sep (S fuel) id f n = (Done, m, ev) ->
  exists ev', ev = ev' ++ [Alloc (m - 1); Send (m - 1) (end_marker rardecode_Reader term)]
              /\ 1 <= m.
Proof.
  intros Hs HR. rewrite extract_plan.
  assert (Hp : plan_of K sep f =
               open (map nested (rar_streams sep (filename f) entries)
                       ++ [direct (end_marker rardecode_Reader term)]) false).
  { unfold sniffed in Hs. unfold plan_of.
    destruct (Peek 512 (buffered (r f))); [| discriminate].
    injection Hs as ->. rewrite HR. reflexivity. }
  rewrite Hp. simpl run_plan. rewrite run_children_app.
  destruct (run_children _ (map nested _) false n) as [[s1 n1] ev1].
  destruct s1; try discriminate.
  simpl. intros [= <- <-]. exists ev1. split; [| lia].
  simpl. rewrite ?Nat.sub_0_r. reflexivity.
Qed.

Lemma tar_EOF_is_sent K sep fuel id f n entries m ev :
  sniffed K f = Some Tar ->
  K.(tar_NewReader) (content (buffered f.(r))) = (entries, io_EOF) ->
  extract K sep (S fuel) id f n = (Done, m, ev) ->
  exists ev', ev = ev' ++ [Alloc (m - 1); Send (m - 1) (end_marker tar_Reader io_EOF)]
              /\ 1 <= m.
Proof.
  intros Hs HT. rewrite extract_plan.
  assert (Hp : plan_of K sep f =
               open (map nested (tar_streams sep (filename f) entries)
                       ++ [direct (end_marker tar_Reader io_EOF)]) false).
  { unfold sniffed in Hs. unfold plan_of.
    destruct (Peek 512 (buffered (r f))); [| discriminate].
    injection Hs as ->. rewrite HT. reflexivity. }
  rewrite Hp. simpl run_plan. rewrite run_children_app.
  destruct (run_children _ (map nested _) false n) as [[s1 n1] ev1].
  destruct s1; try discriminate.
  simpl. intros [= <- <-]. exists ev1. split; [| lia].
  simpl. rewrite ?Nat.sub_0_r. reflexivity.
Qed.

(** ** Sessions on concrete inputs *)

Lemma sent_buffered ev :
  sends_are_buffered ev -> forallb (fun f => is_bufio f.(r)) (sent ev) = true.
Proof.
  unfold sends_are_buffered. induction ev as [| [i | i f | i f] ev IH]; intros H; simpl.
  - reflexivity.
  - apply IH. intros id g Hin. apply (H id g). right. exact Hin.
  - apply IH. intros id g Hin. apply (H id g). right. exact Hin.
  - rewrite (H i f (or_introl eq_refl)). apply IH.
    intros id g Hin. apply (H id g). right. exact Hin.
Qed.

(** A fresh session whose walk returns serves what the walk sends. *)
Lemma started_session_serves K fuel rd name m ev :
  walk K fuel (New rd name) = (Done, m, ev) ->
  serving (once_Do K fuel (New rd name)) (sent ev).
Proof.
  intros HW. unfold serving, once_Do. cbn [New e_once]. rewrite HW. simpl.
  split; [reflexivity |]. split; [reflexivity |].
  destruct (walk_events K fuel (New rd name)) as (ev' & Hev & Hframe).
  rewrite HW in Hev, Hframe. simpl in Hev, Hframe. subst ev. simpl.
  apply sent_buffered.
  apply (proj1 (shape_typed K ":") _ _ _ _ _ _ Hframe).
Qed.

Lemma Next_skips_errors_NextWithError_returns_all_witness :
  let e := once_Do Toy.codecs 3 (New (stream foreign_reader Toy.x_tar_gz) "x.tar.gz") in
  let q := e.(e_c).(queue) in
  serving e q
  /\ List.length q = 3
  /\ pulls Toy.codecs 4 0 e =
       firstn 4 (map next_of (filter no_error q))
         ++ repeat no_more (4 - List.length (filter no_error q))
  /\ pulls_with_error Toy.codecs 4 0 e =
       firstn 4 (map next_with_error_of q)
         ++ repeat no_more_with_error (4 - List.length q).
Proof.
  intros e q.
  assert (Hs : serving e q) by (repeat split; reflexivity).
  split; [exact Hs |]. split; [reflexivity |].
  destruct (@Next_skips_errors_NextWithError_returns_all Toy.codecs 0 e q 4 Hs)
    as (H1 & H2 & _).
  split; assumption.
Defined.

Lemma every_filestream_is_handed_on_witness :
  let w := walk Toy.codecs 3 (New (stream foreign_reader Toy.x_tar_gz) "x.tar.gz") in
  w = (Done, 5, snd w)
  /\ count is_alloc (snd w) = 5
  /\ (forall j, j < 5 -> count (is_alloc_of j) (snd w) = 1 /\ handed_on (snd w) j)
  /\ (forall j, 5 <= j ->
        count (is_alloc_of j) (snd w) = 0 /\ count (is_call_of j) (snd w) = 0
        /\ count (is_send_of j) (snd w) = 0)
  /\ count is_call (snd w) + List.length (uncalled (snd w) 5) = 5
  /\ calls_resolved Toy.codecs (snd w).
Proof.
  intro w.
  assert (HW : w = (Done, 5, snd w)) by reflexivity.
  split; [exact HW |].
  destruct (@every_filestream_is_handed_on Toy.codecs 3
              (New (stream foreign_reader Toy.x_tar_gz) "x.tar.gz") Done 5 (snd w) HW)
    as (H1 & H2 & H3 & H4 & H5).
  repeat (split; [assumption |]). apply H5. discriminate.
Defined.

Lemma leaves_are_sent_in_preorder_witness :
  let rd := stream foreign_reader
                   (Toy.mk_tar [Toy.entry "f" "a.txt" (Toy.B "hi")] ++ Toy.B "?") in
  let e := New rd "x.tar" in
  let t := nest Toy.codecs ":" 3 {| r := rd; filename := "x.tar"; err := None |} in
  fst (fst (walk Toy.codecs 3 e)) = Panic
  /\ map filename (sent (snd (walk Toy.codecs 3 e))) = ["x.tar:a.txt"%string]
  /\ sent (snd (walk Toy.codecs 3 e)) = leaves t
  /\ complete t = false.
Proof.
  intros rd e t.
  split; [reflexivity |]. split; [reflexivity |].
  split; [| reflexivity].
  exact (proj1 (@leaves_are_sent_in_preorder Toy.codecs 3 e)).
Defined.

Lemma nested_zip_is_never_enumerated_witness :
  let inner := Toy.mk_zip [Toy.entry "f" "a" (Toy.B "1")] in
  let e := New (stream foreign_reader (Toy.mk_tar [Toy.entry "f" "in.zip" inner])) "x.tar" in
  let f := {| r := archive_Reader tar_Reader [inner]; filename := "x.tar:in.zip";
              err := None |} in
  let w := walk Toy.codecs 3 e in
  w = (Done, 3, snd w)
  /\ In (Call 1 f) (snd w)
  /\ sniffed Toy.codecs f = Some Zip
  /\ In (Send 1 (nest_error f)) (snd w).
Proof.
  intros inner e f w.
  assert (HW : w = (Done, 3, snd w)) by reflexivity.
  assert (Hin : In (Call 1 f) (snd w)) by (right; right; right; left; reflexivity).
  assert (Hz : sniffed Toy.codecs f = Some Zip) by reflexivity.
  split; [exact HW |]. split; [exact Hin |]. split; [exact Hz |].
  destruct (@nested_zip_is_never_enumerated Toy.codecs 3 e Done 3 (snd w) HW 1 f Hin)
    as (_ & _ & H & _); [discriminate |].
  destruct (H Hz) as [_ Hsent]. apply Hsent. discriminate.
Defined.

(* ================================================================= *)
(** * Further properties of the package *)

(** ** What is on the channel has a bufio.Reader; pulls on a fresh session *)

Lemma once_Do_once K fuel e : e_once (once_Do K fuel e) = true.
Proof.
  unfold once_Do. destruct (e_once e) eqn:E; [exact E |].
  destruct (walk K fuel e) as [[s m] ev]. reflexivity.
Qed.

Lemma once_Do_idempotent K fuel fuel' e :
  once_Do K fuel' (once_Do K fuel e) = once_Do K fuel e.
Proof.
  pose proof (once_Do_once K fuel e) as H.
  generalize dependent (once_Do K fuel e). intros e' H.
  unfold once_Do. rewrite H. reflexivity.
Qed.

Lemma pulls_start K fuel e k :
  pulls K k fuel e = pulls K k fuel (once_Do K fuel e).
Proof.
  destruct k as [| k]; [reflexivity |].
  simpl. unfold Next. rewrite once_Do_idempotent. reflexivity.
Qed.

Lemma pulls_with_error_start K fuel e k :
  pulls_with_error K k fuel e = pulls_with_error K k fuel (once_Do K fuel e).
Proof.
  destruct k as [| k]; [reflexivity |].
  simpl. unfold NextWithError. rewrite once_Do_idempotent. reflexivity.
Qed.

Lemma walk_sends_buffered K fuel e :
  forallb (fun f => is_bufio f.(r)) (sent (snd (walk K fuel e))) = true.
Proof.
  destruct (walk_events K fuel e) as (ev' & Hev & Hframe).
  rewrite Hev. simpl. apply sent_buffered.
  apply (proj1 (shape_typed K (e_sep e)) _ _ _ _ _ _ Hframe).
Qed.

(** X1. Every filestream a walk sends, however the walk ends (it returns,
    or the producer panics), has a *bufio.Reader as its reader, as the
    comment on extract says; so the type assertions of Next and
    NextWithError do not panic.  On a fresh session whose walk returns, [k]
    pulls all return: Next gives the filestreams sent without an error, in
    order, and then (nil, "", false); NextWithError gives all of them and
    then (nil, "", nil, false). *)
Theorem pulls_on_a_fresh_session_return K fuel rd name k :
  let w := walk K fuel (New rd name) in
  forallb (fun f => is_bufio f.(r)) (sent (snd w)) = true
  /\ (fst (fst w) = Done ->
      pulls K k fuel (New rd name) =
        firstn k (map next_of (filter no_error (sent (snd w))))
          ++ repeat no_more (k - List.length (filter no_error (sent (snd w))))
      /\ pulls_with_error K k fuel (New rd name) =
           firstn k (map next_with_error_of (sent (snd w)))
             ++ repeat no_more_with_error (k - List.length (sent (snd w)))
      /\ List.length (pulls K k fuel (New rd name)) = k
      /\ List.length (pulls_with_error K k fuel (New rd name)) = k).
Proof.
  intros w. split; [apply walk_sends_buffered |]. intros Hd.
  assert (HW : walk K fuel (New rd name) = (Done, snd (fst w), snd w)).
  { unfold w in *. destruct (walk K fuel (New rd name)) as [[s m] ev].
    simpl in Hd. subst s. reflexivity. }
  pose proof (started_session_serves K fuel rd name HW) as Hs.
  assert (H1 := @pulls_filter K fuel k _ _ Hs).
  assert (H2 := @pulls_with_error_all K fuel k _ _ Hs).
  rewrite <- pulls_start in H1. rewrite <- pulls_with_error_start in H2.
  split; [exact H1 |]. split; [exact H2 |].
  rewrite H1, H2, !length_app, !repeat_length, !length_firstn, !length_map.
  split; lia.
Qed.

Lemma pulls_on_a_fresh_session_return_witness :
  let rd := stream foreign_reader Toy.x_tar_gz in
  let w := walk Toy.codecs 3 (New rd "x.tar.gz") in
  fst (fst w) = Done
  /\ List.length (pulls Toy.codecs 7 3 (New rd "x.tar.gz")) = 7
  /\ List.length (pulls_with_error Toy.codecs 7 3 (New rd "x.tar.gz")) = 7.
Proof.
  intros rd w.
  assert (HW : fst (fst w) = Done) by reflexivity.
  split; [exact HW |].
  destruct (proj2 (@pulls_on_a_fresh_session_return Toy.codecs 3 rd "x.tar.gz" 7) HW)
    as (_ & _ & H1 & H2).
  split; assumption.
Defined.

(** ** After the channel is closed *)

Lemma Next_loop_false e q rd name e' :
  Next_loop e q = Returns (rd, name, false) e' ->
  e.(e_c).(after) = closes /\ e' = with_queue e [] /\ rd = nil_reader
  /\ name = EmptyString.
Proof.
  induction q as [| fs q IH]; simpl.
  - destruct (after (e_c e)); try discriminate.
    intros [= <- <- <-]. auto.
  - destruct (err fs); [exact IH |].
    destruct (r fs); discriminate.
Qed.

Lemma closed_and_empty K e :
  e.(e_once) = true -> e.(e_c) = {| queue := []; after := closes |} ->
  forall fuel,
    Next K fuel e = Returns no_more (with_queue e [])
    /\ NextWithError K fuel e = Returns no_more_with_error (with_queue e []).
Proof.
  intros Ho Hc fuel. unfold Next, NextWithError, once_Do.
  rewrite Ho, Hc. simpl. rewrite Hc. auto.
Qed.

(** X2. Exhaustion is final.  Once a pull of either kind has returned
    hasMore = false, the reader and name it returned are nil and "", and
    every later pull of either kind on the session returns at once with
    hasMore = false again; the walk is not started a second time. *)
Theorem exhaustion_is_final K fuel e :
  (forall rd name e',
      Next K fuel e = Returns (rd, name, false) e' ->
      rd = nil_reader /\ name = EmptyString
      /\ forall fuel',
          Next K fuel' e' = Returns no_more e'
          /\ NextWithError K fuel' e' = Returns no_more_with_error e')
  /\ (forall rd name er e',
         NextWithError K fuel e = Returns (rd, name, er, false) e' ->
         rd = nil_reader /\ name = EmptyString /\ er = None
         /\ forall fuel',
             Next K fuel' e' = Returns no_more e'
             /\ NextWithError K fuel' e' = Returns no_more_with_error e').
Proof.
  split.
  - intros rd name e' H. unfold Next in H.
    apply Next_loop_false in H. destruct H as (Ha & -> & -> & ->).
    split; [reflexivity |]. split; [reflexivity |]. intros fuel'.
    apply (@closed_and_empty K (with_queue (once_Do K fuel e) [])).
    + simpl. apply once_Do_once.
    + simpl. rewrite Ha. reflexivity.
  - intros rd name er e' H. unfold NextWithError in H.
    destruct (queue (e_c (once_Do K fuel e))) as [| fs q].
    + destruct (after (e_c (once_Do K fuel e))) eqn:Ha; try discriminate.
      injection H as <- <- <- <-.
      split; [reflexivity |]. split; [reflexivity |]. split; [reflexivity |].
      intros fuel'.
      apply (@closed_and_empty K (with_queue (once_Do K fuel e) [])).
      * simpl. apply once_Do_once.
      * simpl. rewrite Ha. reflexivity.
    + destruct (r fs); discriminate.
Qed.

(** ** A nil reader *)

Lemma Peek_unreadable rd :
  readable rd = false -> Peek 512 (buffered rd) = None.
Proof.
  destruct rd; simpl; try discriminate.
  - reflexivity.
  - intros ->. reflexivity.
Qed.

(** X3. A session made over a nil reader (or over a bufio.Reader on one)
    sends nothing: the producer panics at the peek, before any send, and no
    pull of either kind returns. *)
Theorem nil_input_panics K fuel rd name :
  readable rd = false ->
  walk K (S fuel) (New rd name) =
    (Panic, 1, [Alloc 0; Call 0 {| r := rd; filename := name; err := None |}])
  /\ Next K (S fuel) (New rd name) = NoReturn
  /\ NextWithError K (S fuel) (New rd name) = NoReturn.
Proof.
  intros Hr.
  assert (HW : walk K (S fuel) (New rd name) =
               (Panic, 1, [Alloc 0; Call 0 {| r := rd; filename := name; err := None |}])).
  { unfold walk, extract_new. cbn [New e_sep e_r e_filename].
    simpl extract. cbn [r]. rewrite (Peek_unreadable rd Hr). reflexivity. }
  split; [exact HW |].
  unfold Next, NextWithError, once_Do. cbn [New e_once]. rewrite HW.
  split; reflexivity.
Qed.

Lemma nil_input_panics_witness :
  Next Toy.codecs 1 (New nil_reader "x") = NoReturn.
Proof.
  refine (proj1 (proj2 (@nil_input_panics Toy.codecs 0 nil_reader "x" _))).
  reflexivity.
Defined.

Lemma exhaustion_is_final_witness :
  let e := with_queue (once_Do Toy.codecs 1
                         (New (stream foreign_reader (Toy.B "plain text")) "x.txt")) [] in
  Next Toy.codecs 0 e = Returns (nil_reader, EmptyString, false) e
  /\ forall fuel', NextWithError Toy.codecs fuel' e = Returns no_more_with_error e.
Proof.
  intro e.
  assert (H : Next Toy.codecs 0 e = Returns (nil_reader, EmptyString, false) e)
    by reflexivity.
  split; [exact H |]. intros fuel'.
  destruct (proj1 (@exhaustion_is_final Toy.codecs 0 e) _ _ _ H) as (_ & _ & Hl).
  apply Hl.
Defined.

(** ** A walk that sends nothing *)

Lemma plan_of_open_nil K sep f :
  plan_of K sep f = open [] false -> zip_without_entries K f.
Proof.
  unfold plan_of, zip_without_entries, sniffed.
  destruct (Peek 512 (buffered (r f))) as [buf |]; [| discriminate].
  destruct (mime_Detect K buf).
  - destruct (gzip_NewReader K _) as [[e k] | [name data]]; discriminate.
  - destruct (stripped_name sep (filename f) ".bz2"); discriminate.
  - destruct (r f) as [| whole off [e |] | | | pipe |]; try discriminate;
      (destruct (zip_NewReader K _) as [e | files] eqn:Ez; [discriminate |]);
      (destruct files; [| discriminate]); intros _; (split; [reflexivity |]).
    + left. exists whole, off. auto.
    + right. exists pipe. auto.
  - destruct (tar_NewReader K _) as [entries term].
    destruct (is_EOF term); [| discriminate].
    intros [= H]. destruct (map nested _); discriminate.
  - destruct (rardecode_NewReader K _) as [[e k] | [entries term]]; [discriminate |].
    intros [= H]. destruct (map nested _); discriminate.
  - destruct (xz_NewReader K _) as [[e k] | data]; [discriminate |].
    destruct (stripped_name sep (filename f) ".xz"); discriminate.
  - destruct (stripped_name sep (filename f) ".lz4"); discriminate.
  - discriminate.
Qed.

Lemma zip_without_entries_plan K sep f :
  zip_without_entries K f -> plan_of K sep f = open [] false.
Proof.
  intros (Hs & [(whole & off & Hr & Hz) | (data & Hr & Hz)]);
    unfold sniffed in Hs; unfold plan_of;
    (destruct (Peek 512 (buffered (r f))) as [buf |]; [| discriminate]);
    injection Hs as ->; rewrite Hr, Hz; reflexivity.
Qed.

Lemma sent_nil_app ev1 ev2 : sent (ev1 ++ ev2) = [] -> sent ev1 = [] /\ sent ev2 = [].
Proof. rewrite sent_app. apply app_eq_nil. Qed.

Lemma extract_sends_nothing K sep fuel : forall id f n m ev,
  extract K sep fuel id f n = (Done, m, ev) ->
  sent ev = [] -> zip_without_entries K f.
Proof.
  induction fuel as [| fuel IH]; intros id f n m ev H Hs; [discriminate |].
  rewrite extract_plan in H.
  destruct (plan_of K sep f) as [s | f' | cs crash] eqn:E; simpl in H.
  - rewrite (@plan_of_stop K sep f s E) in H. discriminate.
  - injection H as <- <-. discriminate.
  - apply (plan_of_open_nil K sep).
    pose proof (@plan_of_open K sep f cs crash E) as Ht.
    destruct cs as [| c cs].
    + simpl in H. destruct crash; [discriminate | exact E].
    + exfalso. inversion Ht as [| c' cs' Hc _]; subst.
      destruct c as [g | g]; simpl in H; unfold andThen in H.
      * unfold send_new in H.
        destruct (run_children _ cs crash (S n)) as [[s1 m1] ev1].
        injection H as -> <- <-. discriminate.
      * unfold extract_new in H.
        destruct (extract K sep fuel n g (S n)) as [[s1 n1] ev1] eqn:E1.
        destruct s1; try discriminate.
        destruct (run_children _ cs crash n1) as [[s2 m2] ev2].
        injection H as -> <- <-. simpl in Hs.
        apply sent_nil_app in Hs. destruct Hs as [Hs1 _].
        destruct Hc as [Hstream _].
        destruct (IH _ _ _ _ _ E1 Hs1)
          as (_ & [(whole & off & Hr & _) | (data & Hr & _)]);
          rewrite Hr in Hstream; discriminate.
Qed.

(** X4. A walk that returns has sent at least one filestream, with one
    exception: it has sent nothing exactly when the session's input is an
    *os.File that sniffs as zip, whose Stat and zip.NewReader succeed and
    whose archive lists no entry.  Then the first pull reports exhaustion. *)
Theorem only_an_empty_zip_file_sends_nothing K fuel e m ev :
  walk K fuel e = (Done, m, ev) ->
  (sent ev = [] <->
   zip_without_entries K {| r := e.(e_r); filename := e.(e_filename); err := None |})
  /\ (sent ev = [] ->
      e.(e_once) = false ->
      Next K fuel e = Returns no_more (with_queue (once_Do K fuel e) [])).
Proof.
  intros HW. set (root := {| r := e_r e; filename := e_filename e; err := None |}).
  assert (HE : exists ev', ev = Alloc 0 :: Call 0 root :: ev'
                           /\ extract K (e_sep e) fuel 0 root 1 = (Done, m, ev')).
  { unfold walk, extract_new in HW. fold root in HW.
    destruct (extract K (e_sep e) fuel 0 root 1) as [[s1 m1] ev1].
    injection HW as -> <- <-. exists ev1. auto. }
  destruct HE as (ev' & -> & HX). simpl sent. split; [split |].
  - intros Hs. apply (extract_sends_nothing _ _ _ _ _ _ HX Hs).
  - intros Hz. destruct fuel as [| fuel]; [discriminate |].
    rewrite extract_plan, (@zip_without_entries_plan K (e_sep e) root Hz) in HX.
    injection HX as <- <-. reflexivity.
  - intros Hs Ho. unfold Next, once_Do. rewrite Ho, HW. simpl. rewrite Hs. reflexivity.
Qed.

Lemma only_an_empty_zip_file_sends_nothing_witness :
  let e := New (os_File (Toy.mk_zip []) 0 None) "empty.zip" in
  let w := walk Toy.codecs 1 e in
  w = (Done, 1, snd w) /\ sent (snd w) = []
  /\ Next Toy.codecs 1 e = Returns no_more (with_queue (once_Do Toy.codecs 1 e) []).
Proof.
  intros e w.
  assert (HW : w = (Done, 1, snd w)) by reflexivity.
  assert (Hs : sent (snd w) = []) by reflexivity.
  split; [exact HW |]. split; [exact Hs |].
  apply (proj2 (@only_an_empty_zip_file_sends_nothing Toy.codecs 1 e 1 (snd w) HW) Hs).
  reflexivity.
Defined.

(** ** Archives of plain files *)

Lemma run_children_flat K sep fuel cs :
  (forall g, In (nested g) cs -> sniffed K g = Some other_type) ->
  forall n, exists ev,
    run_children (extract K sep (S fuel)) cs false n = (Done, n + List.length cs, ev)
    /\ sent ev = map deliver cs.
Proof.
  induction cs as [| c cs IH]; intros Hleaf n.
  - exists []. simpl. rewrite Nat.add_0_r. auto.
  - destruct (IH (fun g Hg => Hleaf g (or_intror Hg)) (S n)) as (ev & Hrun & Hev).
    destruct c as [g | g]; cbn [run_children List.length]; unfold andThen.
    + unfold send_new. cbv beta iota. rewrite Hrun.
      exists (Alloc n :: Send n g :: ev). simpl. rewrite Hev, Nat.add_succ_r. auto.
    + unfold extract_new.
      rewrite (@extract_leaf K sep fuel n g (S n) (Hleaf g (or_introl eq_refl))).
      cbv beta iota. rewrite Hrun. eexists. split.
      * rewrite Nat.add_succ_r. reflexivity.
      * simpl. rewrite Hev. reflexivity.
Qed.

(** X5. Enumerating a zip file.  For an *os.File that sniffs as zip and whose
    archive is opened, when the entries that can be opened are of
    unrecognized format, the frame returns having sent one filestream per
    entry of the archive, in the order of the archive and directory entries
    included (the zip branch skips none): for an entry that opens, a buffered
    reader over its bytes under the name parent + separator + entry name; for
    one that does not, a filestream with the error of Open, an empty name and
    a reader over nil, after which the following entries are still walked. *)
Theorem zip_file_of_plain_entries K sep fuel id f n whole off files :
  f.(r) = os_File whole off None ->
  sniffed K f = Some Zip ->
  K.(zip_NewReader) whole = inr files ->
  (forall file data, In file files -> file.(zip_Open) = inr data ->
                     K.(mime_Detect) (firstn 512 data) = other_type) ->
  exists ev,
    extract K sep (S (S fuel)) id f n = (Done, n + List.length files, ev)
    /\ sent ev = map (zip_leaf sep f.(filename)) files.
Proof.
  intros Hr Hs Hz Hplain. rewrite extract_plan.
  assert (Hp : plan_of K sep f = open (map (zip_child sep (filename f)) files) false).
  { unfold sniffed in Hs. unfold plan_of.
    destruct (Peek 512 (buffered (r f))); [| discriminate].
    injection Hs as ->. rewrite Hr, Hz. reflexivity. }
  rewrite Hp. simpl run_plan.
  destruct (@run_children_flat K sep fuel (map (zip_child sep (filename f)) files))
    with (n := n) as (ev & Hrun & Hev).
  - intros g Hg. apply in_map_iff in Hg. destruct Hg as (file & Hc & Hin).
    unfold zip_child in Hc. destruct (zip_Open file) as [e | data] eqn:Eo; [discriminate |].
    injection Hc as <-. unfold sniffed. cbn [r]. rewrite Peek_new_stream.
    rewrite (Hplain file data Hin Eo). reflexivity.
  - rewrite length_map in Hrun. exists ev. split; [exact Hrun |].
    rewrite Hev, map_map. apply map_ext. intros file.
    unfold zip_child, zip_leaf. destruct (zip_Open file); reflexivity.
Qed.

Lemma zip_file_of_plain_entries_witness :
  let whole := Toy.mk_zip [Toy.entry "d" "dir/" []; Toy.entry "x" "bad" [];
                           Toy.entry "f" "a.txt" (Toy.B "hi")] in
  let f := {| r := os_File whole 0 None; filename := "x.zip"; err := None |} in
  exists ev,
    extract Toy.codecs ":" 2 0 f 1 = (Done, 4, ev)
    /\ sent ev =
         [ {| r := bufio_NewReader (stream zip_entry []); filename := "x.zip:dir/";
              err := None |};
           {| r := bufio_NewReader nil_reader; filename := ""; err := Some Toy.ErrHeader |};
           {| r := bufio_NewReader (stream zip_entry (Toy.B "hi"));
              filename := "x.zip:a.txt"; err := None |} ].
Proof.
  intros whole f.
  refine (@zip_file_of_plain_entries Toy.codecs ":" 0 0 f 1 whole 0
            [ {| zip_Name := "dir/"; zip_Open := inr [] |};
              {| zip_Name := "bad"; zip_Open := inl Toy.ErrHeader |};
              {| zip_Name := "a.txt"; zip_Open := inr (Toy.B "hi") |} ] _ _ _ _);
    try reflexivity.
  intros file data [<- | [<- | [<- | []]]]; intros [= <-]; reflexivity.
Defined.

Lemma tar_streams_labels sep fname entries :
  map label (map deliver (map nested (tar_streams sep fname entries))) =
    map (tar_label sep fname) (filter tar_regular entries).
Proof.
  induction entries as [| [hdr data] rest IH]; [reflexivity |].
  simpl. unfold tar_regular at 1. cbn [fst].
  destruct (Byte.eqb (Typeflag hdr) tar_TypeReg); simpl; rewrite IH; reflexivity.
Qed.

Lemma rar_streams_labels sep fname entries :
  map label (map deliver (map nested (rar_streams sep fname entries))) =
    map (rar_label sep fname) (filter rar_file entries).
Proof.
  induction entries as [| [hdr data] rest IH]; [reflexivity |].
  simpl. unfold rar_file at 1. cbn [fst].
  destruct (IsDir hdr); simpl; rewrite IH; reflexivity.
Qed.

Lemma tar_streams_length sep fname entries :
  List.length (tar_streams sep fname entries) = List.length (filter tar_regular entries).
Proof.
  rewrite <- (length_map (tar_label sep fname)), <- tar_streams_labels, !length_map.
  reflexivity.
Qed.

Lemma rar_streams_length sep fname entries :
  List.length (rar_streams sep fname entries) = List.length (filter rar_file entries).
Proof.
  rewrite <- (length_map (rar_label sep fname)), <- rar_streams_labels, !length_map.
  reflexivity.
Qed.

(** X6. A tar archive of plain files.  For a filestream that sniffs as tar
    and whose iteration ends with io.EOF, when the regular entries are of
    unrecognized format, the frame returns having sent, in the order of the
    archive, one filestream for every entry whose type flag is TypeReg, named
    parent + separator + entry name, with no error.  Entries of any other
    type (directories, links, devices) are passed over.  Last it sends the
    end marker: an empty name and the error io.EOF. *)
Theorem tar_archive_of_plain_files K sep fuel id f n entries :
  sniffed K f = Some Tar ->
  K.(tar_NewReader) (content (buffered f.(r))) = (entries, io_EOF) ->
  (forall e, In e entries -> tar_regular e = true ->
             K.(mime_Detect) (firstn 512 (snd e)) = other_type) ->
  exists ev,
    extract K sep (S (S fuel)) id f n =
      (Done, n + List.length (filter tar_regular entries) + 1, ev)
    /\ map label (sent ev) =
         map (tar_label sep f.(filename)) (filter tar_regular entries)
           ++ [(EmptyString, Some io_EOF)].
Proof.
  intros Hs HT Hplain. rewrite extract_plan.
  assert (Hp : plan_of K sep f =
               open (map nested (tar_streams sep (filename f) entries)
                       ++ [direct (end_marker tar_Reader io_EOF)]) false).
  { unfold sniffed in Hs. unfold plan_of.
    destruct (Peek 512 (buffered (r f))); [| discriminate].
    injection Hs as ->. rewrite HT. reflexivity. }
  rewrite Hp. cbn [run_plan].
  destruct (@run_children_flat K sep fuel
              (map nested (tar_streams sep (filename f) entries)
                 ++ [direct (end_marker tar_Reader io_EOF)]))
    with (n := n) as (ev & Hrun & Hev).
  - intros g Hg. apply in_app_or in Hg. destruct Hg as [Hg | [Hg | []]]; [| discriminate].
    apply in_map_iff in Hg. destruct Hg as (g' & [= ->] & Hg).
    apply tar_streams_In in Hg.
    destruct Hg as (hdr & data & later & -> & Hin & Hreg).
    rewrite sniffed_at_entry. f_equal. apply (Hplain (hdr, data) Hin Hreg).
  - exists ev. split.
    + rewrite Hrun. rewrite length_app, !length_map, tar_streams_length.
      simpl. rewrite Nat.add_assoc. reflexivity.
    + rewrite Hev, !map_app, tar_streams_labels. reflexivity.
Qed.

Lemma tar_archive_of_plain_files_witness :
  let f := {| r := stream gzip_Reader Toy.x_tar; filename := "x.tar.gz:"; err := None |} in
  exists ev,
    extract Toy.codecs ":" 2 1 f 2 = (Done, 5, ev)
    /\ map label (sent ev) =
         [ ("x.tar.gz::a.txt"%string, None);
           ("x.tar.gz::c.bin"%string, None);
           (EmptyString, Some io_EOF) ].
Proof.
  intro f.
  refine (@tar_archive_of_plain_files Toy.codecs ":" 0 1 f 2
            [ ({| Typeflag := "0"%byte; tar_Name := "a.txt" |}, Toy.B "hello");
              ({| Typeflag := "5"%byte; tar_Name := "b/" |}, []);
              ({| Typeflag := "0"%byte; tar_Name := "c.bin" |}, Toy.B "0101") ] _ _ _);
    try reflexivity.
  intros e [<- | [<- | [<- | []]]]; intros H; try reflexivity; discriminate H.
Defined.

(** X7. A rar archive of plain files.  For a filestream that sniffs as rar
    and whose reader is constructed, when the entries that are not
    directories are of unrecognized format, the frame returns having sent, in
    the order of the archive, one filestream for every entry that is not a
    directory, named parent + separator + entry name and with no error, and
    last the end marker: an empty name and the error that ended the
    iteration, io.EOF or any other. *)
Theorem rar_archive_of_plain_files K sep fuel id f n entries term :
  sniffed K f = Some Rar ->
  K.(rardecode_NewReader) (content (buffered f.(r))) = inr (entries, term) ->
  (forall e, In e entries -> rar_file e = true ->
             K.(mime_Detect) (firstn 512 (snd e)) = other_type) ->
  exists ev,
    extract K sep (S (S fuel)) id f n =
      (Done, n + List.length (filter rar_file entries) + 1, ev)
    /\ map label (sent ev) =
         map (rar_label sep f.(filename)) (filter rar_file entries)
           ++ [(EmptyString, Some term)].
Proof.
  intros Hs HR Hplain. rewrite extract_plan.
  assert (Hp : plan_of K sep f =
               open (map nested (rar_streams sep (filename f) entries)
                       ++ [direct (end_marker rardecode_Reader term)]) false).
  { unfold sniffed in Hs. unfold plan_of.
    destruct (Peek 512 (buffered (r f))); [| discriminate].
    injection Hs as ->. rewrite HR. reflexivity. }
  rewrite Hp. cbn [run_plan].
  destruct (@run_children_flat K sep fuel
              (map nested (rar_streams sep (filename f) entries)
                 ++ [direct (end_marker rardecode_Reader term)]))
    with (n := n) as (ev & Hrun & Hev).
  - intros g Hg. apply in_app_or in Hg. destruct Hg as [Hg | [Hg | []]]; [| discriminate].
    apply in_map_iff in Hg. destruct Hg as (g' & [= ->] & Hg).
    apply rar_streams_In in Hg.
    destruct Hg as (hdr & data & later & -> & Hin & Hreg).
    rewrite sniffed_at_entry. f_equal. apply (Hplain (hdr, data) Hin).
    unfold rar_file. cbn [fst]. rewrite Hreg. reflexivity.
  - exists ev. split.
    + rewrite Hrun. rewrite length_app, !length_map, rar_streams_length.
      simpl. rewrite Nat.add_assoc. reflexivity.
    + rewrite Hev, !map_app, rar_streams_labels. reflexivity.
Qed.

Lemma rar_archive_of_plain_files_witness :
  let f := {| r := stream foreign_reader
                     (Toy.mk_rar [Toy.entry "d" "b/" []; Toy.entry "f" "a" (Toy.B "1")]
                        ++ Toy.B "?");
              filename := "x.rar"; err := None |} in
  exists ev,
    extract Toy.codecs ":" 2 0 f 1 = (Done, 3, ev)
    /\ map label (sent ev) =
         [ ("x.rar:a"%string, None); (EmptyString, Some Toy.ErrHeader) ].
Proof.
  intro f.
  refine (@rar_archive_of_plain_files Toy.codecs ":" 0 0 f 1
            [ ({| IsDir := true; rar_Name := "b/" |}, []);
              ({| IsDir := false; rar_Name := "a" |}, Toy.B "1") ] Toy.ErrHeader _ _ _);
    try reflexivity.
  intros e [<- | [<- | []]]; intros H; try reflexivity; discriminate H.
Defined.

(** ** What every filestream on the channel satisfies *)

Lemma run_children_sent_Forall (P : filestream -> Prop)
      (rec : nat -> filestream -> cmd) cs crash :
  (forall g, In (direct g) cs -> P g) ->
  (forall g id n, In (nested g) cs -> Forall P (sent (snd (rec id g n)))) ->
  forall n, Forall P (sent (snd (run_children rec cs crash n))).
Proof.
  induction cs as [| c cs IH]; intros Hd Hn n.
  - simpl. destruct crash; constructor.
  - assert (IH' : forall k, Forall P (sent (snd (run_children rec cs crash k)))).
    { apply IH.
      - intros g Hg. apply Hd. right. exact Hg.
      - intros g id k Hg. apply Hn. right. exact Hg. }
    destruct c as [g | g]; cbn [run_children]; unfold andThen.
    + unfold send_new. specialize (IH' (S n)).
      destruct (run_children rec cs crash (S n)) as [[s m] ev].
      simpl. constructor; [apply Hd; left; reflexivity | exact IH'].
    + unfold extract_new.
      pose proof (Hn g n (S n) (or_introl eq_refl)) as H1.
      destruct (rec n g (S n)) as [[s1 n1] ev1]. simpl in H1.
      destruct s1; simpl; try exact H1.
      specialize (IH' n1). destruct (run_children rec cs crash n1) as [[s m] ev].
      simpl. rewrite sent_app. apply Forall_app. split; assumption.
Qed.

Lemma buffered_idempotent rd : buffered (buffered rd) = buffered rd.
Proof. destruct rd; reflexivity. Qed.

Lemma plan_of_pass_unrecognized K sep f f' :
  plan_of K sep f = pass f' -> f'.(err) = None -> sniffed K f' = Some other_type.
Proof.
  unfold plan_of, sniffed.
  destruct (Peek 512 (buffered (r f))) as [buf |] eqn:EP; [| discriminate].
  destruct (mime_Detect K buf) eqn:ED.
  - destruct (gzip_NewReader K _) as [[e k] | [name data]]; [| discriminate].
    intros [= <-]. discriminate.
  - destruct (stripped_name sep (filename f) ".bz2"); discriminate.
  - destruct (r f) as [| whole off [e |] | | | pipe |];
      try (intros [= <-]; discriminate);
      (destruct (zip_NewReader K _); [| discriminate]);
      intros [= <-]; discriminate.
  - destruct (tar_NewReader K _) as [entries term].
    destruct (is_EOF term); discriminate.
  - destruct (rardecode_NewReader K _) as [[e k] | [entries term]]; [| discriminate].
    intros [= <-]. discriminate.
  - destruct (xz_NewReader K _) as [[e k] | data].
    + intros [= <-]. discriminate.
    + destruct (stripped_name sep (filename f) ".xz"); discriminate.
  - destruct (stripped_name sep (filename f) ".lz4"); discriminate.
  - intros [= <-] _. cbn [r]. rewrite buffered_idempotent, EP, ED. reflexivity.
Qed.

Lemma extract_sent_unrecognized K sep fuel : forall id f n,
  Forall (fun g => g.(err) = None -> sniffed K g = Some other_type)
         (sent (snd (extract K sep fuel id f n))).
Proof.
  induction fuel as [| fuel IH]; intros id f n; [constructor |].
  rewrite extract_plan.
  destruct (plan_of K sep f) as [s | f' | cs crash] eqn:E; simpl.
  - constructor.
  - constructor; [| constructor]. apply (plan_of_pass_unrecognized K sep f E).
  - apply run_children_sent_Forall.
    + intros g Hg Hnone.
      pose proof (@plan_of_open K sep f cs crash E) as Ht.
      rewrite Forall_forall in Ht. destruct (Ht _ Hg) as [_ Herr]. contradiction.
    + intros g id' n' _. apply IH.
Qed.

Lemma Next_loop_true e q rd name e' :
  Next_loop e q = Returns (rd, name, true) e' ->
  exists fs, In fs q /\ fs.(err) = None /\ fs.(r) = rd /\ fs.(filename) = name.
Proof.
  induction q as [| fs q IH]; simpl.
  - destruct (after (e_c e)); discriminate.
  - destruct (err fs) eqn:Ee.
    + intros H. destruct (IH H) as (g & Hin & Hg). exists g. split; [right |]; assumption.
    + destruct (r fs) eqn:Er; try discriminate.
      intros [= <- <- <-]. exists fs. rewrite Er. auto.
Qed.

Lemma Next_loop_state e q res e' :
  Next_loop e q = Returns res e' ->
  exists rest, e' = with_queue e rest /\ (forall x, In x rest -> In x q).
Proof.
  induction q as [| fs q IH]; simpl.
  - destruct (after (e_c e)); try discriminate.
    intros [= <- <-]. exists []. split; [reflexivity | intros x []].
  - destruct (err fs).
    + intros H. destruct (IH H) as (rest & He & Hin).
      exists rest. split; [exact He | intros x Hx; right; auto].
    + destruct (r fs); try discriminate.
      intros [= <- <-]. exists q. split; [reflexivity | intros x Hx; right; exact Hx].
Qed.

(** Whatever a pull of Next on a started session returns with hasMore = true
    is a filestream of the queue that carries no error. *)
Lemma pulls_started K fuel k : forall e,
  e.(e_once) = true ->
  forall rd name,
    In (rd, name, true) (pulls K k fuel e) ->
    exists fs, In fs e.(e_c).(queue)
               /\ fs.(err) = None /\ fs.(r) = rd /\ fs.(filename) = name.
Proof.
  induction k as [| k IH]; intros e Ho rd name Hin; [contradiction |].
  simpl in Hin. unfold Next, once_Do in Hin. rewrite Ho in Hin.
  destruct (Next_loop e (queue (e_c e))) as [res e' |] eqn:EN; [| contradiction].
  destruct Hin as [-> | Hin].
  - apply (Next_loop_true _ _ EN).
  - destruct (Next_loop_state _ _ EN) as (rest & -> & Hsub).
    destruct (IH (with_queue e rest) Ho rd name Hin) as (fs & Hfs & H).
    exists fs. split; [apply Hsub, Hfs | exact H].
Qed.

Lemma pulls_on_fresh K fuel k e rd name :
  e.(e_once) = false ->
  In (rd, name, true) (pulls K k fuel e) ->
  exists fs, In fs (sent (snd (walk K fuel e)))
             /\ fs.(err) = None /\ fs.(r) = rd /\ fs.(filename) = name.
Proof.
  intros Ho Hin. rewrite pulls_start in Hin.
  apply pulls_started in Hin; [| apply once_Do_once].
  unfold once_Do in Hin. rewrite Ho in Hin.
  destruct (walk K fuel e) as [[s m] ev]. exact Hin.
Qed.

(** X8. Next returns only what the sniffer does not recognize.  Every
    filestream a walk sends without an error, sniffed from its buffered
    reader as it stands when it is sent, is of unrecognized format: a stream
    whose format is recognized is never handed out as a leaf; it is opened,
    or sent with an error.  So
    every reader that any of the successive calls of Next on a new session,
    the first or a later one, returns with hasMore = true sniffs as
    unrecognized. *)
Theorem Next_returns_only_unrecognized_streams K fuel e :
  (forall g, In g (sent (snd (walk K fuel e))) -> g.(err) = None ->
             sniffed K g = Some other_type)
  /\ (forall k rd name,
         e.(e_once) = false ->
         In (rd, name, true) (pulls K k fuel e) ->
         sniffed K {| r := rd; filename := name; err := None |} = Some other_type).
Proof.
  assert (HA : forall g, In g (sent (snd (walk K fuel e))) -> g.(err) = None ->
                         sniffed K g = Some other_type).
  { unfold walk, extract_new.
    pose proof (extract_sent_unrecognized K (e_sep e) fuel 0
                  {| r := e_r e; filename := e_filename e; err := None |} 1) as H.
    destruct (extract K (e_sep e) fuel 0 _ 1) as [[s m] ev]. simpl in H |- *.
    rewrite Forall_forall in H. exact H. }
  split; [exact HA |].
  intros k rd name Ho H.
  destruct (pulls_on_fresh K fuel k e rd name Ho H) as (fs & Hin & He & <- & <-).
  apply (HA fs Hin He).
Qed.

Lemma Next_returns_only_unrecognized_streams_witness :
  let e := New (stream foreign_reader Toy.x_tar_gz) "x.tar.gz" in
  let rd := bufio_NewReader (archive_Reader tar_Reader [Toy.B "0101"]) in
  nth_error (pulls Toy.codecs 3 3 e) 1 = Some (rd, "x.tar.gz::c.bin"%string, true)
  /\ sniffed Toy.codecs {| r := rd; filename := "x.tar.gz::c.bin"; err := None |}
     = Some other_type.
Proof.
  intros e rd. split; [reflexivity |].
  refine (proj2 (@Next_returns_only_unrecognized_streams Toy.codecs 3 e) 3 _ _ _ _).
  - reflexivity.
  - right. left. reflexivity.
Defined.

(** ** Names *)

Lemma stripped_name_extends sep fname canon name :
  stripped_name sep fname canon = Some name ->
  exists rest, name = (fname ++ rest)%string.
Proof.
  unfold stripped_name. destruct (strings.Split fname sep); [discriminate |].
  destruct (String.eqb _ canon); intros [= <-].
  - eexists. reflexivity.
  - exists EmptyString. rewrite string_app_nil_r. reflexivity.
Qed.

Lemma streams_named root (gs : list filestream) :
  (forall g, In g gs -> exists rest, g.(filename) = (root ++ rest)%string) ->
  Forall (child_named root) (map nested gs).
Proof.
  intros H. apply Forall_forall. intros c Hc.
  apply in_map_iff in Hc. destruct Hc as (g & <- & Hg). apply H, Hg.
Qed.

Lemma plan_of_open_named K sep f cs crash :
  plan_of K sep f = open cs crash ->
  Forall (child_named f.(filename)) cs.
Proof.
  unfold plan_of.
  assert (Hone : forall t data name,
             (exists rest, name = (filename f ++ rest)%string) ->
             Forall (child_named (filename f))
                    [nested {| r := stream t data; filename := name; err := None |}]).
  { intros t data name H. constructor; [exact H | constructor]. }
  assert (Hend : forall t e, child_named (filename f) (direct (end_marker t e))).
  { intros t e. split; [reflexivity | discriminate]. }
  destruct (Peek 512 (buffered (r f))) as [buf |]; [| discriminate].
  destruct (mime_Detect K buf).
  - destruct (gzip_NewReader K _) as [[e k] | [name data]]; [discriminate |].
    intros [= <- <-]. apply Hone. eexists. reflexivity.
  - destruct (stripped_name sep (filename f) ".bz2") eqn:En; [| discriminate].
    intros [= <- <-]. apply Hone. apply (stripped_name_extends _ _ _ En).
  - destruct (r f) as [| whole off [e |] | | | pipe |]; try discriminate;
      (destruct (zip_NewReader K _) as [e | files]; [discriminate |]);
      intros [= <- <-]; apply Forall_forall; intros c Hc;
      apply in_map_iff in Hc; destruct Hc as (file & <- & _);
      unfold zip_child; destruct (zip_Open file); simpl;
      first [split; [reflexivity | discriminate] | eexists; reflexivity].
  - destruct (tar_NewReader K _) as [entries term].
    assert (Hs : Forall (child_named (filename f))
                        (map nested (tar_streams sep (filename f) entries))).
    { apply streams_named. intros g Hg. apply tar_streams_In in Hg.
      destruct Hg as (hdr & data & later & -> & _).
      eexists. reflexivity. }
    destruct (is_EOF term); intros [= <- <-]; [| exact Hs].
    apply Forall_app. split; [exact Hs |]. constructor; [apply Hend | constructor].
  - destruct (rardecode_NewReader K _) as [[e k] | [entries term]]; [discriminate |].
    intros [= <- <-]. apply Forall_app. split.
    + apply streams_named. intros g Hg. apply rar_streams_In in Hg.
      destruct Hg as (hdr & data & later & -> & _).
      eexists. reflexivity.
    + constructor; [apply Hend | constructor].
  - destruct (xz_NewReader K _) as [[e k] | data]; [discriminate |].
    destruct (stripped_name sep (filename f) ".xz") eqn:En; [| discriminate].
    intros [= <- <-]. apply Hone. apply (stripped_name_extends _ _ _ En).
  - destruct (stripped_name sep (filename f) ".lz4") eqn:En; [| discriminate].
    intros [= <- <-]. apply Hone. apply (stripped_name_extends _ _ _ En).
  - discriminate.
Qed.

Lemma named_under_trans root rest g :
  named_under (root ++ rest) g -> named_under root g.
Proof.
  intros [(rest' & H) | H]; [left | right; exact H].
  exists (rest ++ rest')%string. rewrite H. apply string_app_assoc.
Qed.

Lemma extract_sent_named K sep fuel : forall id f n,
  Forall (named_under f.(filename)) (sent (snd (extract K sep fuel id f n))).
Proof.
  induction fuel as [| fuel IH]; intros id f n; [constructor |].
  rewrite extract_plan.
  destruct (plan_of K sep f) as [s | f' | cs crash] eqn:E; simpl.
  - constructor.
  - constructor; [| constructor]. left. exists EmptyString.
    rewrite string_app_nil_r. apply (@plan_of_pass K sep f f' E).
  - pose proof (@plan_of_open_named K sep f cs crash E) as Hn.
    rewrite Forall_forall in Hn.
    apply run_children_sent_Forall.
    + intros g Hg. right. apply (Hn _ Hg).
    + intros g id' n' Hg. destruct (Hn _ Hg) as (rest & Hrest).
      specialize (IH id' g n'). rewrite Hrest in IH.
      eapply Forall_impl; [| exact IH].
      intros h. apply named_under_trans.
Qed.

(** X9. Names grow from the session's name.  Every filestream a walk sends
    has a name that begins with the name given to New, or it has an empty
    name and carries an error (the end marker of a tar or rar archive, a zip
    entry that could not be opened).  So every name that any of the
    successive calls of Next on a new session, the first or a later one,
    returns with hasMore = true begins with the name given to New. *)
Theorem names_begin_with_the_session_name K fuel e :
  Forall (named_under e.(e_filename)) (sent (snd (walk K fuel e)))
  /\ (forall k rd name,
         e.(e_once) = false ->
         In (rd, name, true) (pulls K k fuel e) ->
         exists rest, name = (e.(e_filename) ++ rest)%string).
Proof.
  assert (HA : Forall (named_under (e_filename e)) (sent (snd (walk K fuel e)))).
  { unfold walk, extract_new.
    pose proof (extract_sent_named K (e_sep e) fuel 0
                  {| r := e_r e; filename := e_filename e; err := None |} 1) as H.
    destruct (extract K (e_sep e) fuel 0 _ 1) as [[s m] ev]. exact H. }
  split; [exact HA |].
  intros k rd name Ho H.
  destruct (pulls_on_fresh K fuel k e rd name Ho H) as (fs & Hin & He & _ & <-).
  rewrite Forall_forall in HA.
  destruct (HA fs Hin) as [Hp | [_ Hne]]; [exact Hp | contradiction].
Qed.

Lemma names_begin_with_the_session_name_witness :
  let e := New (stream foreign_reader Toy.x_tar_gz) "x.tar.gz" in
  let rd := bufio_NewReader (archive_Reader tar_Reader [Toy.B "0101"]) in
  nth_error (pulls Toy.codecs 3 3 e) 1 = Some (rd, "x.tar.gz::c.bin"%string, true)
  /\ exists rest, "x.tar.gz::c.bin"%string = ("x.tar.gz" ++ rest)%string.
Proof.
  intros e rd. split; [reflexivity |].
  refine (proj2 (@names_begin_with_the_session_name Toy.codecs 3 e) 3 rd _ _ _).
  - reflexivity.
  - right. left. reflexivity.
Defined.

(** ** The end of an archive is the last thing its frame sends *)

(** X10. When the frame of a tar archive whose iteration ends with io.EOF, or
    of a rar archive whose iteration ends with any error, returns, the last
    filestream it constructed is the end marker and the send of that marker
    is its last event, whatever the entries held: a caller of NextWithError
    receives, after all that the entries gave, a filestream with an empty
    name and that error, with hasMore = true. *)
Theorem archive_end_is_sent_last K sep fuel id f n m ev :
  extract K sep (S fuel) id f n = (Done, m, ev) ->
  (forall entries,
      sniffed K f = Some Tar ->
      K.(tar_NewReader) (content (buffered f.(r))) = (entries, io_EOF) ->
      exists ev', ev = ev' ++ [Alloc (m - 1); Send (m - 1) (end_marker tar_Reader io_EOF)])
  /\ (forall entries term,
         sniffed K f = Some Rar ->
         K.(rardecode_NewReader) (content (buffered f.(r))) = inr (entries, term) ->
         exists ev', ev = ev' ++ [Alloc (m - 1);
                                  Send (m - 1) (end_marker rardecode_Reader term)]).
Proof.
  intros H. split.
  - intros entries Hs HT.
    destruct (tar_EOF_is_sent K sep fuel id f n Hs HT H) as (ev' & Hev & _).
    exists ev'. exact Hev.
  - intros entries term Hs HR.
    destruct (rar_iteration_end_is_sent K sep fuel id f n Hs HR H) as (ev' & Hev & _).
    exists ev'. exact Hev.
Qed.

Lemma archive_end_is_sent_last_witness :
  let f := {| r := stream foreign_reader
                     (Toy.mk_rar [Toy.entry "f" "in.gz" (Toy.mk_gzip "in" (Toy.B "1"))]
                        ++ Toy.B "?");
              filename := "x.rar"; err := None |} in
  let w := extract Toy.codecs ":" 3 0 f 1 in
  w = (Done, 4, snd w)
  /\ exists ev', snd w = ev' ++ [Alloc 3; Send 3 (end_marker rardecode_Reader Toy.ErrHeader)].
Proof.
  intros f w.
  assert (HW : w = (Done, 4, snd w)) by reflexivity.
  split; [exact HW |].
  refine (proj2 (@archive_end_is_sent_last Toy.codecs ":" 2 0 f 1 4 (snd w) HW)
                [({| IsDir := false; rar_Name := "in.gz" |}, Toy.mk_gzip "in" (Toy.B "1"))]
                Toy.ErrHeader _ _); reflexivity.
Defined.

(** ** A producer that panics *)

Lemma Next_loop_unclosed e q :
  e.(e_c).(after) <> closes ->
  Next_loop e q = NoReturn
  \/ exists fs rest,
      Next_loop e q = Returns (next_of fs) (with_queue e rest)
      /\ fs.(err) = None
      /\ List.length (filter no_error rest) < List.length (filter no_error q).
Proof.
  intros Ha. induction q as [| fs q IH]; simpl.
  - left. destruct (after (e_c e)); [contradiction | reflexivity | reflexivity].
  - unfold no_error at 2. destruct (err fs) eqn:Ee.
    + exact IH.
    + destruct (r fs) eqn:Er; try (left; reflexivity).
      right. exists fs, q. unfold next_of. rewrite Er. simpl. auto.
Qed.

Lemma pulls_unclosed K fuel k : forall e,
  e.(e_once) = true -> e.(e_c).(after) <> closes ->
  Forall (fun res => snd res = true) (pulls K k fuel e)
  /\ List.length (pulls K k fuel e) <= List.length (filter no_error e.(e_c).(queue)).
Proof.
  induction k as [| k IH]; intros e Ho Ha; [split; [constructor | simpl; lia] |].
  simpl pulls. unfold Next, once_Do. rewrite Ho.
  destruct (Next_loop_unclosed e (queue (e_c e)) Ha) as [-> | (fs & rest & -> & He & Hlt)].
  - split; [constructor | simpl; lia].
  - destruct (IH (with_queue e rest)) as [IH1 IH2]; [exact Ho | exact Ha |].
    simpl in IH2. split.
    + constructor; [reflexivity | exact IH1].
    + simpl. lia.
Qed.

(** X11. When the producer panics, as it does on a tar archive whose
    iteration ends with an error other than io.EOF, the channel is never
    closed: on a new session, however many times Next is called, every call
    that returns has hasMore = true, at most as many calls return as
    filestreams were sent without an error before the panic, and exhaustion
    is never reported. *)
Theorem panic_is_never_reported_as_exhaustion K fuel e m ev k :
  e.(e_once) = false ->
  walk K fuel e = (Panic, m, ev) ->
  Forall (fun res => snd res = true) (pulls K k fuel e)
  /\ List.length (pulls K k fuel e) <= List.length (filter no_error (sent ev))
  /\ ~ In no_more (pulls K k fuel e).
Proof.
  intros Ho HW. rewrite pulls_start.
  assert (He : once_Do K fuel e =
               {| e_r := e_r e; e_c := {| queue := sent ev; after := panics |};
                  e_filename := e_filename e; e_once := true; e_sep := e_sep e |}).
  { unfold once_Do. rewrite Ho, HW. reflexivity. }
  destruct (@pulls_unclosed K fuel k (once_Do K fuel e)) as [H1 H2].
  - apply once_Do_once.
  - rewrite He. discriminate.
  - rewrite He in H2 at 2. simpl in H2.
    split; [exact H1 |]. split; [exact H2 |].
    intros Hin. rewrite Forall_forall in H1. specialize (H1 _ Hin). discriminate.
Qed.

Lemma panic_is_never_reported_as_exhaustion_witness :
  let e := New (stream foreign_reader
                  (Toy.mk_tar [Toy.entry "f" "a.txt" (Toy.B "hello")] ++ Toy.B "?"))
               "x.tar" in
  let w := walk Toy.codecs 3 e in
  w = (Panic, 2, snd w)
  /\ List.length (pulls Toy.codecs 5 3 e) <= 1
  /\ ~ In no_more (pulls Toy.codecs 5 3 e).
Proof.
  intros e w.
  assert (HW : w = (Panic, 2, snd w)) by reflexivity.
  split; [exact HW |].
  destruct (@panic_is_never_reported_as_exhaustion Toy.codecs 3 e 2 (snd w) 5
              eq_refl HW) as (_ & H2 & H3).
  split; [exact H2 | exact H3].
Defined.
